(** * The TODO.md store of [server.js]: codec, git helpers and API handlers

    A shallow embedding of the part of [src/server.js] that keeps a todo
    list in a Markdown file under git: [parseTodoMd], [serializeTodoMd],
    [saveTodoMd], [pullLatest], [commitAndPush] and the six JSON
    handlers that mutate the parsed document, with the three routes that
    only read and the session guard [requireAuth] in front of them all.

    JavaScript strings are sequences of UTF-16 code units; they are
    modelled as [list N].  Every regular expression, [trim] and [split]
    used by the source works on code units, so the model does too. *)

From Stdlib Require Import NArith ZArith Ascii.
From stdpp Require Import base option list strings.

Set Default Proof Using "Type".
Open Scope N_scope.

(** ** JavaScript strings *)

Abbreviation jsstring := (list N).

(** A literal of the source, one code unit per ASCII character. *)
Definition lit (s : string) : jsstring :=
  map Ascii.N_of_ascii (String.list_ascii_of_string s).
Arguments lit : simpl never.

(** Code units that cannot be written inside a Rocq string literal. *)
Definition LF : N := 10.
Definition CR : N := 13.
Definition SPACE : N := 32.
Definition DQUOTE : N := 34.
Definition BACKSLASH : N := 92.
Definition ARROW : N := 8594.

(** ECMAScript [LineTerminator]: LF, CR, U+2028, U+2029.  The regular
    expression atom [.] (no [s] flag) matches every code unit but these. *)
Definition is_line_terminator (c : N) : bool :=
  (c =? 10) || (c =? 13) || (c =? 8232) || (c =? 8233).

(** ECMAScript [WhiteSpace]: TAB, VT, FF, SP, NBSP, ZWNBSP and the
    Unicode [Zs] category. *)
Definition is_white_space (c : N) : bool :=
  (c =? 9) || (c =? 11) || (c =? 12) || (c =? 32) || (c =? 160)
  || (c =? 5760) || ((8192 <=? c) && (c <=? 8202))
  || (c =? 8239) || (c =? 8287) || (c =? 12288) || (c =? 65279).

(** What [String.prototype.trim] strips: WhiteSpace and LineTerminator. *)
Definition is_trimmable (c : N) : bool :=
  is_white_space c || is_line_terminator c.

Fixpoint trimStart (s : jsstring) : jsstring :=
  match s with
  | c :: s' => if is_trimmable c then trimStart s' else s
  | [] => []
  end.

Definition trimEnd (s : jsstring) : jsstring :=
  reverse (trimStart (reverse s)).

(** [s.trim()] *)
Definition trim (s : jsstring) : jsstring := trimEnd (trimStart s).

(** [s.split('\n')]: the pieces between line feeds; never empty, the
    empty string gives one empty piece. *)
Fixpoint split_lf (s : jsstring) : list jsstring :=
  match s with
  | [] => [[]]
  | c :: s' =>
      if c =? LF then [] :: split_lf s'
      else match split_lf s' with
           | l :: ls => (c :: l) :: ls
           | [] => [[c]]
           end
  end.

(** [s.replace(/"/g, '\\"')]: a backslash before every double quote. *)
Fixpoint escape_quotes (s : jsstring) : jsstring :=
  match s with
  | [] => []
  | c :: s' =>
      if c =? DQUOTE then BACKSLASH :: DQUOTE :: escape_quotes s'
      else c :: escape_quotes s'
  end.

(** The remainder of [s] after the literal prefix [p], if [s] starts
    with it. *)
Fixpoint after_prefix (p s : jsstring) : option jsstring :=
  match p, s with
  | [], _ => Some s
  | a :: p', b :: s' => if a =? b then after_prefix p' s' else None
  | _ :: _, [] => None
  end.

(** The tail [(.+)$] of both patterns: with no [m] flag [$] is the end
    of the string, so the group must run to the end, be non-empty and
    hold no line terminator. *)
Definition dot_plus_to_end (s : jsstring) : bool :=
  match s with
  | [] => false
  | _ :: _ => forallb (fun c => negb (is_line_terminator c)) s
  end.

(** [line.match(/^## (.+)$/)], giving capture group 1. *)
Definition sectionMatch (line : jsstring) : option jsstring :=
  match after_prefix (lit "## ") line with
  | Some rest => if dot_plus_to_end rest then Some rest else None
  | None => None
  end.

(** [line.match(/^- \[([ xX])\] (.+)$/)], giving capture groups 1 and 2. *)
Definition itemMatch (line : jsstring) : option (N * jsstring) :=
  match after_prefix (lit "- [") line with
  | Some (c :: rest) =>
      if (c =? 32) || (c =? 120) || (c =? 88) then
        match after_prefix (lit "] ") rest with
        | Some body => if dot_plus_to_end body then Some (c, body) else None
        | None => None
        end
      else None
  | _ => None
  end.

(** ** Data model *)

(** [{ done, text }] *)
Record Item := mkItem { done : bool; text : jsstring }.

(** [{ name, items }] *)
Record Sec := mkSec { name : jsstring; items : list Item }.

(** [{ sections }] *)
Record Document := mkDoc { sections : list Sec }.

#[global] Instance Item_eq_dec : EqDecision Item.
Proof. solve_decision. Defined.
#[global] Instance Sec_eq_dec : EqDecision Sec.
Proof. solve_decision. Defined.
#[global] Instance Document_eq_dec : EqDecision Document.
Proof. solve_decision. Defined.

(** [{ name: 'General', items: [] }] *)
Definition general : Sec := mkSec (lit "General") [].

(** ** Document codec *)

(** [currentSection.items.push(it)].  [currentSection] is assigned only
    together with [sections.push(currentSection)], so it is [null] exactly
    while [sections] is empty and otherwise aliases the last element. *)
Fixpoint push_to_current (it : Item) (secs : list Sec) : list Sec :=
  match secs with
  | [] => []
  | [s] => [mkSec (name s) (items s ++ [it])]
  | s :: rest => s :: push_to_current it rest
  end.

(** One turn of the [for (const line of lines)] loop of [parseTodoMd]. *)
Definition parse_line (secs : list Sec) (line : jsstring) : list Sec :=
  match sectionMatch line with
  | Some g1 => secs ++ [mkSec (trim g1) []]
  | None =>
      match itemMatch line, secs with
      | Some (mark, g2), _ :: _ =>
          push_to_current (mkItem (negb (mark =? SPACE)) (trim g2)) secs
      | _, _ => secs
      end
  end.

(** The loop over all lines, from a given [sections] array. *)
Definition parse_lines (lines : list jsstring) (secs : list Sec) : list Sec :=
  fold_left parse_line lines secs.

(** [parseTodoMd] from [content.split('\n')] on: the text-to-Document
    function. *)
Definition parseContent (content : jsstring) : Document :=
  let secs := parse_lines (split_lf content) [] in
  match secs with
  | [] => mkDoc [general]
  | _ :: _ => mkDoc secs
  end.

(** [serializeTodoMd] *)
Definition serialize_item (md : jsstring) (it : Item) : jsstring :=
  md ++ lit "- [" ++ (if done it then lit "x" else lit " ") ++ lit "] "
     ++ text it ++ [LF].

Definition serialize_section (md : jsstring) (s : Sec) : jsstring :=
  fold_left serialize_item (items s)
            (md ++ [LF] ++ lit "## " ++ name s ++ [LF; LF]).

Definition serializeTodoMd (data : Document) : jsstring :=
  fold_left serialize_section (sections data) (lit "# Todo List" ++ [LF]).

(** ** The world of the process

    What the handlers can see and touch: the file [TODO_FILE] of the
    working copy (absent, or present with its decoded text), the git
    binary, and a record of what the process did.  [ensureRepo] has run at
    start-up, so the working copy exists. *)

Inductive Event :=
| EvGit (cmd : jsstring)     (* [execSync(`git ${cmd}`, ...)] was run *)
| EvWrite (md : jsstring).   (* [fs.writeFileSync(TODO_FILE, md, 'utf8')] *)

(** How one run of the git binary ends: it fails (non-zero exit, or the
    30 s timeout), and [execSync] throws; or it succeeds and prints
    [stdout].  [origin_todo] is the TODO.md of [origin/master] at that
    moment, which is what a successful [reset --hard origin/master] leaves
    in the working copy; no other command touches the file. *)
Inductive GitReply :=
| GitFails
| GitPrints (stdout : jsstring) (origin_todo : option jsstring).

Record World := mkWorld {
  todo_file : option jsstring;
  git_replies : list GitReply;   (* how the coming git runs will end *)
  events : list Event            (* oldest first *)
}.

(** A JavaScript computation: it returns a value or throws, and changes
    the world either way. *)
Inductive Result (A : Type) :=
| Returned (a : A) (w : World)
| Thrown (w : World).
Arguments Returned {A} a w.
Arguments Thrown {A} w.

Definition M (A : Type) : Type := World → Result A.

#[global] Instance M_ret : MRet M := λ A a w, Returned a w.
#[global] Instance M_bind : MBind M := λ A B f m w,
  match m w with
  | Returned a w' => f a w'
  | Thrown w' => Thrown w'
  end.

(** [try { body } catch (e) { console.error(...) }] *)
Definition try_catch (body : M unit) : M unit := λ w,
  match body w with
  | Returned _ w' => Returned () w'
  | Thrown w' => Returned () w'
  end.

Definition log (e : Event) (w : World) : list Event := events w ++ [e].

(** [git(cmd)]: one run of the binary.  With no reply left the run fails. *)
Definition git (cmd : jsstring) : M jsstring := λ w,
  match git_replies w with
  | GitPrints stdout origin_todo :: rest =>
      Returned stdout
        (mkWorld (if decide (cmd = lit "reset --hard origin/master")
                  then origin_todo else todo_file w)
                 rest (log (EvGit cmd) w))
  | GitFails :: rest => Thrown (mkWorld (todo_file w) rest (log (EvGit cmd) w))
  | [] => Thrown (mkWorld (todo_file w) [] (log (EvGit cmd) w))
  end.

(** [fs.existsSync(TODO_FILE)] *)
Definition existsSync : M bool := λ w,
  Returned (bool_decide (is_Some (todo_file w))) w.

(** [fs.readFileSync(TODO_FILE, 'utf8')]: throws when the file is absent. *)
Definition readFileSync : M jsstring := λ w,
  match todo_file w with
  | Some content => Returned content w
  | None => Thrown w
  end.

(** [fs.writeFileSync(TODO_FILE, md, 'utf8')] *)
Definition writeFileSync (md : jsstring) : M unit := λ w,
  Returned () (mkWorld (Some md) (git_replies w) (log (EvWrite md) w)).

(** ** Git helpers *)

Definition pullLatest : M unit :=
  try_catch (
    git (lit "fetch origin") ;;
    git (lit "reset --hard origin/master") ;;
    mret ()).

Definition commitAndPush (message : jsstring) : M unit :=
  try_catch (
    git (lit "add TODO.md") ;;
    status ← git (lit "status --porcelain");
    match trim status with
    | [] => mret ()
    | _ :: _ =>
        git (lit "commit -m " ++ [DQUOTE] ++ escape_quotes message ++ [DQUOTE]) ;;
        git (lit "push origin master") ;;
        mret ()
    end).

(** ** Reading and saving TODO.md *)

Definition parseTodoMd : M Document :=
  pullLatest ;;
  present ← existsSync;
  if negb present then mret (mkDoc [general])
  else
    content ← readFileSync;
    mret (parseContent content).

Definition saveTodoMd (data : Document) (message : jsstring) : M unit :=
  let md := serializeTodoMd data in
  writeFileSync md ;;
  commitAndPush (match message with [] => lit "Update todos" | _ :: _ => message end).

(** ** The API handlers

    Every handler has the same frame: [const data = parseTodoMd()], then a
    guarded in-place change of [data] followed by [saveTodoMd(data, msg)],
    then [res.json(data)].  The guarded change is written as a function
    from the parsed document to the changed document and the commit
    message, [None] when the guard fails; [respond] is the frame.

    Request fields are typed: [section], [text] and the [name] of a
    section to delete are strings, [index] is an integer, and the [name]
    of a section to add, which the source tests for truthiness, is a
    string or absent. *)

Definition Change : Type := Document → option (Document * jsstring).

Definition respond (change : Change) : M Document :=
  data ← parseTodoMd;
  match change data with
  | Some (data', message) => saveTodoMd data' message ;; mret data'
  | None => mret data
  end.

(** What a handler does to the parsed document, whether or not it saves. *)
Definition apply (change : Change) (data : Document) : Document :=
  match change data with
  | Some (data', _) => data'
  | None => data
  end.

(** [data.sections.find(s => s.name === section)]: the first section of
    that name, with its position; the object found is the array element
    itself, so changing it changes [data]. *)
Definition find_section (section : jsstring) (data : Document) : option (nat * Sec) :=
  list_find (λ s, name s = section) (sections data).

(** [sec.items[index]] for an integer [index]; [None] is [undefined]. *)
Definition item_at (its : list Item) (index : Z) : option Item :=
  if (0 <=? index)%Z then its !! Z.to_nat index else None.

(** [sec.items = its] written back into [data] at position [k]. *)
Definition with_items (data : Document) (k : nat) (sec : Sec) (its : list Item) : Document :=
  mkDoc (<[k := mkSec (name sec) its]> (sections data)).

(** [app.post('/api/todos')] *)
Definition addItem_change (section text : jsstring) : Change := λ data,
  match find_section section data with
  | Some (k, sec) =>
      Some (with_items data k sec (items sec ++ [mkItem false text]),
            lit "Add: " ++ text)
  | None => None
  end.

(** [app.put('/api/todos/toggle')] *)
Definition toggleItem_change (section : jsstring) (index : Z) : Change := λ data,
  match find_section section data with
  | Some (k, sec) =>
      match item_at (items sec) index with
      | Some it =>
          let item := mkItem (negb (done it)) (text it) in
          Some (with_items data k sec (<[Z.to_nat index := item]> (items sec)),
                (if done item then lit "Complete" else lit "Reopen")
                ++ lit ": " ++ text item)
      | None => None
      end
  | None => None
  end.

(** [app.put('/api/todos/edit')] *)
Definition editItem_change (section : jsstring) (index : Z) (new_text : jsstring) : Change := λ data,
  match find_section section data with
  | Some (k, sec) =>
      match item_at (items sec) index with
      | Some it =>
          let old := text it in
          Some (with_items data k sec
                  (<[Z.to_nat index := mkItem (done it) new_text]> (items sec)),
                lit "Edit: " ++ [DQUOTE] ++ old ++ [DQUOTE; SPACE; ARROW; SPACE; DQUOTE]
                ++ new_text ++ [DQUOTE])
      | None => None
      end
  | None => None
  end.

(** [app.delete('/api/todos')]; [delete i l] is [l.splice(i, 1)]. *)
Definition removeItem_change (section : jsstring) (index : Z) : Change := λ data,
  match find_section section data with
  | Some (k, sec) =>
      match item_at (items sec) index with
      | Some removed =>
          Some (with_items data k sec (delete (Z.to_nat index) (items sec)),
                lit "Remove: " ++ text removed)
      | None => None
      end
  | None => None
  end.

(** [app.post('/api/sections')]; an absent or empty [name] is falsy. *)
Definition addSection_change (name_arg : option jsstring) : Change := λ data,
  match name_arg with
  | Some (c :: n) =>
      let nm := c :: n in
      match find_section nm data with
      | None => Some (mkDoc (sections data ++ [mkSec nm []]),
                      lit "Add section: " ++ nm)
      | Some _ => None
      end
  | Some [] | None => None
  end.

(** [app.delete('/api/sections')] *)
Definition removeSection_change (nm : jsstring) : Change := λ data,
  let kept := filter (λ s, name s ≠ nm) (sections data) in
  Some (mkDoc (match kept with [] => [general] | _ :: _ => kept end),
        lit "Remove section: " ++ nm).

Definition post_api_todos (section text : jsstring) : M Document :=
  respond (addItem_change section text).
Definition put_api_todos_toggle (section : jsstring) (index : Z) : M Document :=
  respond (toggleItem_change section index).
Definition put_api_todos_edit (section : jsstring) (index : Z) (new_text : jsstring) : M Document :=
  respond (editItem_change section index new_text).
Definition delete_api_todos (section : jsstring) (index : Z) : M Document :=
  respond (removeItem_change section index).
Definition post_api_sections (name_arg : option jsstring) : M Document :=
  respond (addSection_change name_arg).
Definition delete_api_sections (nm : jsstring) : M Document :=
  respond (removeSection_change nm).

(** The operations of the todo store, as maps on documents. *)
Definition addItem (section text : jsstring) : Document → Document :=
  apply (addItem_change section text).
Definition toggleItem (section : jsstring) (index : Z) : Document → Document :=
  apply (toggleItem_change section index).
Definition editItem (section : jsstring) (index : Z) (new_text : jsstring) : Document → Document :=
  apply (editItem_change section index new_text).
Definition removeItem (section : jsstring) (index : Z) : Document → Document :=
  apply (removeItem_change section index).
Definition addSection (name_arg : option jsstring) : Document → Document :=
  apply (addSection_change name_arg).
Definition removeSection (nm : jsstring) : Document → Document :=
  apply (removeSection_change nm).

(** ** Vocabulary of the properties *)

(** No leading and no trailing character that [trim] would strip. *)
Definition is_trimmed (s : jsstring) : bool :=
  negb (from_option is_trimmable false (head s))
  && negb (from_option is_trimmable false (last s)).

(** The name and every item text of [s] satisfy [p]. *)
Definition sec_strings (p : jsstring → bool) (s : Sec) : bool :=
  p (name s) && forallb (λ it, p (text it)) (items s).

(** Every section name and every item text of [d] satisfies [p]. *)
Definition all_strings (p : jsstring → bool) (d : Document) : bool :=
  forallb (sec_strings p) (sections d).

Definition normalized (d : Document) : bool := all_strings is_trimmed d.

(** The string holds a line feed. *)
Definition has_newline (s : jsstring) : bool := existsb (λ c, c =? LF) s.

(** The string, taken as a line, is a section header or a checklist line. *)
Definition syntax_shaped (s : jsstring) : bool :=
  bool_decide (is_Some (sectionMatch s)) || bool_decide (is_Some (itemMatch s)).

(** Free of newlines and not shaped like the file's syntax. *)
Definition plain_text (s : jsstring) : bool :=
  negb (has_newline s) && negb (syntax_shaped s).

(** Non-empty, on one line (no line terminator at all), and trimmed:
    the strings that a header or checklist line gives back unchanged. *)
Definition storable (s : jsstring) : bool :=
  dot_plus_to_end s && is_trimmed s.

Definition roundtrippable (d : Document) : bool :=
  match sections d with
  | [] => false
  | _ :: _ => all_strings storable d
  end.

(** The lines that [serializeTodoMd] writes, without their line feeds. *)
Definition item_line (it : Item) : jsstring :=
  lit "- [" ++ (if done it then lit "x" else lit " ") ++ lit "] " ++ text it.

Definition header_line (s : Sec) : jsstring := lit "## " ++ name s.

Definition section_lines (s : Sec) : list jsstring :=
  [] :: header_line s :: [] :: map item_line (items s).

Definition doc_lines (d : Document) : list jsstring :=
  lit "# Todo List" :: concat (map section_lines (sections d)).

(** Every line followed by a line feed. *)
Definition unlines (ls : list jsstring) : jsstring :=
  concat (map (λ l, l ++ [LF]) ls).

(** No line of the text is a section header. *)
Definition no_header (content : jsstring) : bool :=
  forallb (λ line, bool_decide (sectionMatch line = None)) (split_lf content).

(** What happened between two worlds of one run. *)
Definition events_since (w w' : World) : list Event :=
  drop (length (events w)) (events w').

Definition is_write (e : Event) : bool :=
  match e with EvWrite _ => true | EvGit _ => false end.

(** [commitAndPush] starts with [git add TODO.md], and nothing else runs it. *)
Definition starts_publish (e : Event) : bool :=
  match e with
  | EvGit cmd => bool_decide (cmd = lit "add TODO.md")
  | EvWrite _ => false
  end.

Definition wrote_file (w w' : World) : bool :=
  existsb is_write (events_since w w').
Definition publish_attempted (w w' : World) : bool :=
  existsb starts_publish (events_since w w').

(** The section name matches a section of [d]. *)
Definition addresses_section (section : jsstring) (d : Document) : bool :=
  bool_decide (is_Some (find_section section d)).

(** The section name matches a section of [d] and the index an item of
    the section found. *)
Definition addresses_item (section : jsstring) (index : Z) (d : Document) : bool :=
  match find_section section d with
  | Some (_, sec) => bool_decide (is_Some (item_at (items sec) index))
  | None => false
  end.

(** The world a computation ends in, returned or thrown. *)
Definition world_of {A} (r : Result A) : World :=
  match r with Returned _ w | Thrown w => w end.

(** A run of [removeSection] calls, one per name, each on the result of
    the one before. *)
Definition removeSections (names : list jsstring) (d : Document) : Document :=
  fold_left (λ d nm, removeSection nm d) names d.

(** Sample worlds and documents. *)
Definition work_ship : Document :=
  mkDoc [mkSec (lit "Work") [mkItem true (lit "ship")]].

Definition buy_milk : Document :=
  mkDoc [mkSec (lit "General") [mkItem false (lit "buy milk")]].

Definition padded_milk : Document :=
  mkDoc [mkSec (lit "General") [mkItem false (lit " milk")]].

(** A working copy holding [work_ship], with git answering every run and
    reporting a modified file to [status]. *)
Definition sample_world : World :=
  mkWorld (Some (serializeTodoMd work_ship))
          [GitPrints [] (Some (serializeTodoMd work_ship));
           GitPrints [] (Some (serializeTodoMd work_ship));
           GitPrints [] None;
           GitPrints (lit " M TODO.md") None;
           GitPrints [] None;
           GitPrints [] None]
          [].

(** ** The endpoints that only read *)

(** [app.get('/api/todos')] *)
Definition get_api_todos : M Document := parseTodoMd.

(** [app.post('/webhook/github')]; the answer [{ ok: true }] is its flag. *)
Definition post_webhook_github : M bool :=
  pullLatest ;;
  mret true.

(** [app.post('/api/sync')]: it pulls, and [parseTodoMd] pulls again. *)
Definition post_api_sync : M Document :=
  pullLatest ;;
  parseTodoMd.

(** ** Requests

    The six routes that change the document, each with its typed body. *)
Inductive Request :=
| PostTodo (section text : jsstring)
| PutToggle (section : jsstring) (index : Z)
| PutEdit (section : jsstring) (index : Z) (new_text : jsstring)
| DeleteTodo (section : jsstring) (index : Z)
| PostSection (name_arg : option jsstring)
| DeleteSection (nm : jsstring).

(** The route table. *)
Definition handle (r : Request) : M Document :=
  match r with
  | PostTodo section text => post_api_todos section text
  | PutToggle section index => put_api_todos_toggle section index
  | PutEdit section index new_text => put_api_todos_edit section index new_text
  | DeleteTodo section index => delete_api_todos section index
  | PostSection name_arg => post_api_sections name_arg
  | DeleteSection nm => delete_api_sections nm
  end.

(** The guarded change behind each route. *)
Definition change_of (r : Request) : Change :=
  match r with
  | PostTodo section text => addItem_change section text
  | PutToggle section index => toggleItem_change section index
  | PutEdit section index new_text => editItem_change section index new_text
  | DeleteTodo section index => removeItem_change section index
  | PostSection name_arg => addSection_change name_arg
  | DeleteSection nm => removeSection_change nm
  end.

(** ** The session guard

    [app.use(requireAuth)] is registered before every route below it, the
    webhook included, so each of their requests passes through it first.
    [authenticated] is [req.session && req.session.authenticated]. *)

Inductive AuthOutcome :=
| Next                          (* [next()] *)
| SendTo (target : jsstring).   (* [res.redirect(target)] *)

Definition requireAuth (authenticated : bool) (path : jsstring) : AuthOutcome :=
  if authenticated then Next
  else if decide (path = lit "/login") then Next
  else SendTo (lit "/login").

(** The routes registered after the guard. *)
Inductive Endpoint :=
| Mutate (r : Request)
| GetTodos
| Sync
| Webhook.

Definition path_of (e : Endpoint) : jsstring :=
  match e with
  | Mutate (PostTodo _ _) | Mutate (DeleteTodo _ _) | GetTodos => lit "/api/todos"
  | Mutate (PutToggle _ _) => lit "/api/todos/toggle"
  | Mutate (PutEdit _ _ _) => lit "/api/todos/edit"
  | Mutate (PostSection _) | Mutate (DeleteSection _) => lit "/api/sections"
  | Sync => lit "/api/sync"
  | Webhook => lit "/webhook/github"
  end.

(** What the client gets. *)
Inductive Reply :=
| Json (data : Document)         (* [res.json(data)] *)
| JsonOk (ok : bool)             (* [res.json({ ok })] *)
| RedirectTo (target : jsstring).

(** A request to one of these routes: the guard, then the handler. *)
Definition serve (authenticated : bool) (e : Endpoint) : M Reply :=
  match requireAuth authenticated (path_of e) with
  | Next =>
      match e with
      | Mutate r => data ← handle r; mret (Json data)
      | GetTodos => data ← get_api_todos; mret (Json data)
      | Sync => data ← post_api_sync; mret (Json data)
      | Webhook => ok ← post_webhook_github; mret (JsonOk ok)
      end
  | SendTo target => mret (RedirectTo target)
  end.

(** ** More vocabulary *)

(** The string holds a line terminator (LF, CR, U+2028 or U+2029). *)
Definition has_line_terminator (s : jsstring) : bool :=
  existsb is_line_terminator s.

(** Trimmed and free of line terminators; possibly empty. *)
Definition clean (s : jsstring) : bool :=
  is_trimmed s && negb (has_line_terminator s).

(** The line is a section header. *)
Definition is_header (line : jsstring) : Prop := is_Some (sectionMatch line).

(** The number of section headers among the lines. *)
Definition header_count (lines : list jsstring) : nat :=
  length (filter is_header lines).

(** The number of items of a document, all sections together. *)
Definition item_count (d : Document) : nat :=
  sum_list (map (λ s, length (items s)) (sections d)).


(** The four git commands of [commitAndPush], in the order it runs them. *)
Definition publish_commands (message : jsstring) : list Event :=
  [EvGit (lit "add TODO.md");
   EvGit (lit "status --porcelain");
   EvGit (lit "commit -m " ++ [DQUOTE] ++ escape_quotes message ++ [DQUOTE]);
   EvGit (lit "push origin master")].


(** A TODO.md with Windows line ends. *)
Definition crlf_file : jsstring :=
  lit "## Work" ++ [CR; LF] ++ lit "- [x] ship" ++ [CR; LF].

(** * Properties *)

(** ** [trim] *)

Lemma trimStart_id (s : jsstring) :
  from_option is_trimmable false (head s) = false → trimStart s = s.
Proof. destruct s as [|c s]; simpl; [done|]. by intros ->. Qed.

Lemma trimEnd_id (s : jsstring) :
  from_option is_trimmable false (last s) = false → trimEnd s = s.
Proof.
  intros H. unfold trimEnd. rewrite trimStart_id.
  - apply reverse_involutive.
  - by rewrite head_reverse.
Qed.

Lemma trim_id (s : jsstring) : is_trimmed s = true → trim s = s.
Proof.
  unfold is_trimmed, trim. intros [Hh Hl]%andb_prop.
  apply negb_true_iff in Hh, Hl.
  rewrite (trimStart_id s Hh). by apply trimEnd_id.
Qed.

Lemma trimStart_head (s : jsstring) :
  from_option is_trimmable false (head (trimStart s)) = false.
Proof.
  induction s as [|c s IH]; simpl; [done|].
  destruct (is_trimmable c) eqn:E; [done|]. simpl. by rewrite E.
Qed.

Lemma trimStart_suffix (s : jsstring) : trimStart s `suffix_of` s.
Proof.
  induction s as [|c s IH]; simpl; [done|].
  destruct (is_trimmable c); [by apply suffix_cons_r | done].
Qed.

Lemma trimEnd_last (s : jsstring) :
  from_option is_trimmable false (last (trimEnd s)) = false.
Proof. unfold trimEnd. rewrite last_reverse. apply trimStart_head. Qed.

Lemma trimEnd_prefix (s : jsstring) : trimEnd s `prefix_of` s.
Proof.
  unfold trimEnd. destruct (trimStart_suffix (reverse s)) as [p Hp].
  exists (reverse p). rewrite <- reverse_app, <- Hp.
  by rewrite reverse_involutive.
Qed.

Lemma trim_is_trimmed (s : jsstring) : is_trimmed (trim s) = true.
Proof.
  unfold is_trimmed, trim. rewrite trimEnd_last. rewrite andb_true_r.
  apply negb_true_iff.
  destruct (trimEnd_prefix (trimStart s)) as [q Hq].
  pose proof (trimStart_head s) as Hh. rewrite Hq in Hh.
  destruct (trimEnd (trimStart s)) as [|c r]; [done|]. exact Hh.
Qed.

(** ** [serializeTodoMd] writes [doc_lines], [split] reads them back *)

Lemma unlines_cons (l : jsstring) (ls : list jsstring) :
  unlines (l :: ls) = l ++ LF :: unlines ls.
Proof. unfold unlines. simpl. by rewrite <- app_assoc. Qed.

Lemma unlines_app (a b : list jsstring) : unlines (a ++ b) = unlines a ++ unlines b.
Proof. unfold unlines. by rewrite map_app, concat_app. Qed.

Lemma serialize_items_lines (its : list Item) (md : jsstring) :
  fold_left serialize_item its md = md ++ unlines (map item_line its).
Proof.
  revert md. induction its as [|it its IH]; intros md; simpl.
  - by rewrite app_nil_r.
  - rewrite IH, unlines_cons. unfold serialize_item, item_line.
    by rewrite <- !app_assoc.
Qed.

Lemma serialize_section_lines (md : jsstring) (s : Sec) :
  serialize_section md s = md ++ unlines (section_lines s).
Proof.
  unfold serialize_section. rewrite serialize_items_lines.
  unfold section_lines, header_line. rewrite !unlines_cons.
  rewrite <- !app_assoc. reflexivity.
Qed.

Lemma serialize_sections_lines (secs : list Sec) (md : jsstring) :
  fold_left serialize_section secs md
  = md ++ unlines (concat (map section_lines secs)).
Proof.
  revert md. induction secs as [|s secs IH]; intros md; cbn [fold_left map concat].
  - by rewrite app_nil_r.
  - rewrite IH, serialize_section_lines, unlines_app. by rewrite <- app_assoc.
Qed.

Lemma serialize_doc_lines (d : Document) :
  serializeTodoMd d = unlines (doc_lines d).
Proof.
  unfold serializeTodoMd, doc_lines.
  rewrite serialize_sections_lines, unlines_cons.
  by rewrite <- app_assoc.
Qed.

Lemma split_lf_line (l rest : jsstring) :
  has_newline l = false → split_lf (l ++ LF :: rest) = l :: split_lf rest.
Proof.
  induction l as [|c l IH]; simpl; [done|].
  intros [Hc Hl]%orb_false_elim. rewrite Hc, (IH Hl). done.
Qed.

Lemma split_lf_unlines (ls : list jsstring) :
  Forall (λ l, has_newline l = false) ls → split_lf (unlines ls) = ls ++ [[]].
Proof.
  induction 1 as [|l ls Hl _ IH]; [done|].
  rewrite unlines_cons, split_lf_line, IH; done.
Qed.

Lemma one_line_no_newline (s : jsstring) :
  forallb (λ c, negb (is_line_terminator c)) s = true → has_newline s = false.
Proof.
  induction s as [|c s IH]; simpl; [done|].
  intros [Hc Hs]%andb_prop. rewrite (IH Hs), orb_false_r.
  unfold is_line_terminator in Hc. apply negb_true_iff in Hc.
  by apply orb_false_elim in Hc as [[[Hc _]%orb_false_elim _]%orb_false_elim _].
Qed.

Lemma storable_no_newline (s : jsstring) : storable s = true → has_newline s = false.
Proof.
  unfold storable, dot_plus_to_end. intros [H _]%andb_prop.
  destruct s; [done|]. by apply one_line_no_newline.
Qed.

Lemma has_newline_app (a b : jsstring) :
  has_newline (a ++ b) = has_newline a || has_newline b.
Proof. apply existsb_app. Qed.

Lemma item_line_no_newline (it : Item) :
  storable (text it) = true → has_newline (item_line it) = false.
Proof.
  intros H%storable_no_newline. unfold item_line.
  rewrite !has_newline_app, H. by destruct (done it).
Qed.

Lemma section_lines_no_newline (s : Sec) :
  sec_strings storable s = true →
  Forall (λ l, has_newline l = false) (section_lines s).
Proof.
  unfold sec_strings, section_lines. intros [Hn Hi]%andb_prop.
  repeat constructor.
  - unfold header_line. rewrite has_newline_app.
    by rewrite (storable_no_newline _ Hn).
  - apply Forall_map, Forall_forall. intros it Hit.
    apply item_line_no_newline.
    rewrite forallb_forall in Hi. apply Hi. by apply list_elem_of_In.
Qed.

Lemma doc_lines_no_newline (d : Document) :
  all_strings storable d = true →
  Forall (λ l, has_newline l = false) (doc_lines d).
Proof.
  unfold all_strings, doc_lines. intros H. constructor; [done|].
  induction (sections d) as [|s secs IH]; cbn [map concat]; [constructor|].
  simpl in H. apply andb_prop in H as [Hs Hr].
  apply Forall_app. split; [by apply section_lines_no_newline | by apply IH].
Qed.

(** ** The parser on the lines of [serializeTodoMd] *)

Lemma parse_lines_app (l1 l2 : list jsstring) (secs : list Sec) :
  parse_lines (l1 ++ l2) secs = parse_lines l2 (parse_lines l1 secs).
Proof. apply fold_left_app. Qed.

Lemma after_prefix_app (p s : jsstring) : after_prefix p (p ++ s) = Some s.
Proof.
  induction p as [|c p IH]; simpl; [by destruct s|]. by rewrite N.eqb_refl.
Qed.

Lemma sectionMatch_header (nm : jsstring) :
  dot_plus_to_end nm = true → sectionMatch (lit "## " ++ nm) = Some nm.
Proof. intros H. unfold sectionMatch. by rewrite after_prefix_app, H. Qed.

Lemma sectionMatch_item_line (it : Item) : sectionMatch (item_line it) = None.
Proof. reflexivity. Qed.

Lemma itemMatch_item_line (it : Item) :
  dot_plus_to_end (text it) = true →
  itemMatch (item_line it) = Some (if done it then 120 else 32, text it).
Proof.
  intros H. unfold item_line, itemMatch.
  rewrite after_prefix_app. destruct (done it).
  - change (lit "x" ++ lit "] " ++ text it) with (120 :: (lit "] " ++ text it)).
    cbn. by rewrite after_prefix_app, H.
  - change (lit " " ++ lit "] " ++ text it) with (32 :: (lit "] " ++ text it)).
    cbn. by rewrite after_prefix_app, H.
Qed.

Lemma push_to_current_snoc (it : Item) (secs : list Sec) (s : Sec) :
  push_to_current it (secs ++ [s]) = secs ++ [mkSec (name s) (items s ++ [it])].
Proof.
  induction secs as [|s0 secs IH]; [done|].
  cbn [app push_to_current]. rewrite IH.
  by destruct secs.
Qed.

Lemma parse_line_blank (secs : list Sec) : parse_line secs [] = secs.
Proof. by destruct secs. Qed.

Lemma parse_line_title (secs : list Sec) : parse_line secs (lit "# Todo List") = secs.
Proof. by destruct secs. Qed.

Lemma parse_line_header (secs : list Sec) (s : Sec) :
  storable (name s) = true →
  parse_line secs (header_line s) = secs ++ [mkSec (name s) []].
Proof.
  unfold storable. intros [H1 H2]%andb_prop.
  unfold parse_line, header_line. by rewrite sectionMatch_header, trim_id.
Qed.

Lemma parse_line_item (secs : list Sec) (s : Sec) (it : Item) :
  storable (text it) = true →
  parse_line (secs ++ [s]) (item_line it)
  = secs ++ [mkSec (name s) (items s ++ [it])].
Proof.
  unfold storable. intros [H1 H2]%andb_prop.
  unfold parse_line. rewrite sectionMatch_item_line, itemMatch_item_line by done.
  rewrite trim_id by done.
  replace (negb ((if done it then 120 else 32) =? SPACE)) with (done it)
    by by destruct (done it).
  rewrite <- push_to_current_snoc.
  destruct it; by destruct (secs ++ [s]).
Qed.

Lemma parse_item_lines (its : list Item) (secs : list Sec) (s : Sec) :
  forallb (λ it, storable (text it)) its = true →
  parse_lines (map item_line its) (secs ++ [s])
  = secs ++ [mkSec (name s) (items s ++ its)].
Proof.
  revert s. induction its as [|it its IH]; intros s H.
  - cbn. rewrite app_nil_r. by destruct s.
  - cbn [forallb] in H. apply andb_prop in H as [Hit Hits].
    cbn [map parse_lines fold_left]. rewrite parse_line_item by done.
    fold (parse_lines (map item_line its)
            (secs ++ [mkSec (name s) (items s ++ [it])])).
    rewrite IH by done. cbn [name items]. by rewrite <- app_assoc.
Qed.

Lemma parse_section_lines (s : Sec) (secs : list Sec) :
  sec_strings storable s = true →
  parse_lines (section_lines s) secs = secs ++ [s].
Proof.
  unfold sec_strings. intros [Hn Hi]%andb_prop.
  unfold section_lines, parse_lines. cbn [fold_left].
  rewrite !parse_line_blank, parse_line_header by done.
  fold (parse_lines (map item_line (items s)) (secs ++ [mkSec (name s) []])).
  rewrite parse_item_lines by done. by destruct s.
Qed.

Lemma parse_sections_lines (new secs : list Sec) :
  forallb (sec_strings storable) new = true →
  parse_lines (concat (map section_lines new)) secs = secs ++ new.
Proof.
  revert secs. induction new as [|s new IH]; intros secs H.
  - cbn. by rewrite app_nil_r.
  - cbn [forallb] in H. apply andb_prop in H as [Hs Hnew].
    cbn [map concat]. rewrite parse_lines_app, parse_section_lines by done.
    rewrite IH by done. by rewrite <- app_assoc.
Qed.

Lemma roundtrip_on_storable (d : Document) :
  roundtrippable d = true → parseContent (serializeTodoMd d) = d.
Proof.
  unfold roundtrippable. intros H.
  assert (Hall : all_strings storable d = true) by by destruct (sections d).
  unfold parseContent.
  rewrite serialize_doc_lines, split_lf_unlines by by apply doc_lines_no_newline.
  unfold doc_lines. rewrite parse_lines_app.
  cbn [parse_lines fold_left]. rewrite parse_line_title.
  fold (parse_lines (concat (map section_lines (sections d))) []).
  rewrite parse_sections_lines by done.
  rewrite parse_line_blank. cbn [app].
  destruct d as [secs]. cbn in *. by destruct secs.
Qed.

(** C1, as amended.  For every document with at least one section whose
    section names and item texts are non-empty, hold no line terminator
    (LF, CR, U+2028, U+2029) and have no leading or trailing white space,
    parsing the serialized document gives the document back exactly.  No
    condition on the shape of the strings is needed. *)
Theorem parse_serialize_roundtrip (d : Document) :
  roundtrippable d = true → parseContent (serializeTodoMd d) = d.
Proof. apply roundtrip_on_storable. Qed.

Lemma parse_serialize_roundtrip_witness :
  roundtrippable work_ship = true
  ∧ parseContent (serializeTodoMd work_ship) = work_ship.
Proof.
  split; [reflexivity | apply (parse_serialize_roundtrip work_ship); reflexivity].
Defined.

(** C1, as stated, fails: an item text with a leading space holds no
    newline and is neither a header nor a checklist line, and [trim]
    removes the space on the way back. *)
Lemma roundtrip_loses_padding :
  all_strings plain_text padded_milk = true
  ∧ parseContent (serializeTodoMd padded_milk) ≠ padded_milk.
Proof. split; [reflexivity | by vm_compute]. Qed.

(** C8.  The document with the one section "Work" holding the one done
    item "ship" serializes to the title line, a blank line, the header
    line, a blank line and the checklist line, each ended by a line feed. *)
Theorem serialize_work_ship :
  serializeTodoMd work_ship
  = lit "# Todo List" ++ [LF; LF] ++ lit "## Work" ++ [LF; LF]
    ++ lit "- [x] ship" ++ [LF].
Proof. reflexivity. Qed.

(** ** Text without a section header *)

Lemma parse_line_before_header (line : jsstring) :
  sectionMatch line = None → parse_line [] line = [].
Proof.
  intros H. unfold parse_line. rewrite H. by destruct (itemMatch line) as [[]|].
Qed.

(** Lines before the first header leave no trace, checklist lines too. *)
Lemma lines_before_first_header_ignored (pre rest : list jsstring) :
  forallb (λ line, bool_decide (sectionMatch line = None)) pre = true →
  parse_lines (pre ++ rest) [] = parse_lines rest [].
Proof.
  intros H. rewrite parse_lines_app. f_equal.
  induction pre as [|line pre IH]; [done|].
  cbn [forallb] in H. apply andb_prop in H as [Hl Hpre].
  apply bool_decide_eq_true in Hl.
  cbn [parse_lines fold_left]. rewrite parse_line_before_header by done.
  by apply IH.
Qed.

(** C4.  A text none of whose lines is a section header parses to the one
    empty section "General", whatever checklist lines it holds. *)
Theorem parse_without_header (content : jsstring) :
  no_header content = true → parseContent content = mkDoc [general].
Proof.
  unfold no_header, parseContent. intros H.
  rewrite <- (app_nil_r (split_lf content)).
  by rewrite lines_before_first_header_ignored.
Qed.

Lemma parse_without_header_witness :
  let content := lit "- [ ] stray" ++ [LF] ++ lit "- [x] done" ++ [LF] ++ lit "notes" in
  no_header content = true ∧ parseContent content = mkDoc [general].
Proof.
  split; [reflexivity | apply parse_without_header; reflexivity].
Defined.

(** ** Running [parseTodoMd] *)

Lemma events_since_app (w w' : World) (evs : list Event) :
  events w' = events w ++ evs → events_since w w' = evs.
Proof. unfold events_since. intros ->. apply drop_app_length. Qed.

(** [pullLatest] swallows every failure of git, and only runs git. *)
Lemma pullLatest_returns (w : World) :
  ∃ w' evs, pullLatest w = Returned () w'
    ∧ events w' = events w ++ evs
    ∧ existsb is_write evs = false ∧ existsb starts_publish evs = false.
Proof.
  unfold pullLatest, try_catch, mbind, M_bind, mret, M_ret, git, log.
  destruct (git_replies w) as [|[|out1 t1] [|[|out2 t2] rest]]; cbn;
    eexists _, _; (split; [reflexivity|]); cbn; rewrite <- ?app_assoc;
    (split; [reflexivity|]); split; reflexivity.
Qed.

Lemma parseTodoMd_returns (w : World) :
  ∃ d w' evs, parseTodoMd w = Returned d w'
    ∧ d = match todo_file w' with
          | Some content => parseContent content
          | None => mkDoc [general]
          end
    ∧ events w' = events w ++ evs
    ∧ existsb is_write evs = false ∧ existsb starts_publish evs = false.
Proof.
  destruct (pullLatest_returns w) as (w1 & evs & Hpull & Hev & Hw & Hp).
  unfold parseTodoMd, mbind, M_bind. rewrite Hpull.
  unfold existsSync, readFileSync, mret, M_ret.
  destruct (todo_file w1) as [content|] eqn:Hfile; cbn;
    eexists _, w1, evs; rewrite Hfile; done.
Qed.

(** C5.  [parseTodoMd] returns for every world: whatever git does and
    whatever text the file holds, or with no file at all, it does not
    throw.  The document is the parse of the file's text, the default
    document when there is no file; the empty text gives the default
    document; and a line that matches neither pattern changes nothing. *)
Theorem parseTodoMd_total :
  (∀ w, ∃ d w', parseTodoMd w = Returned d w'
          ∧ d = match todo_file w' with
                | Some content => parseContent content
                | None => mkDoc [general]
                end)
  ∧ parseContent [] = mkDoc [general]
  ∧ (∀ secs line,
        match sectionMatch line, itemMatch line with
        | None, None => parse_line secs line = secs
        | _, _ => True
        end).
Proof.
  split; [|split].
  - intros w. destruct (parseTodoMd_returns w) as (d & w' & evs & H & Hd & _).
    by exists d, w'.
  - reflexivity.
  - intros secs line. unfold parse_line.
    destruct (sectionMatch line); [done|]. by destruct (itemMatch line).
Qed.

(** ** What the parser stores is trimmed *)

Lemma push_to_current_strings (p : jsstring → bool) (it : Item) (secs : list Sec) :
  forallb (sec_strings p) secs = true → p (text it) = true →
  forallb (sec_strings p) (push_to_current it secs) = true.
Proof.
  intros H Hit. induction secs as [|s secs IH]; [done|].
  cbn [forallb] in H. apply andb_prop in H as [Hs Hsecs].
  destruct secs as [|s' secs'].
  - cbn. unfold sec_strings in *. cbn [name items].
    apply andb_prop in Hs as [-> Hi]. rewrite forallb_app, Hi. cbn. by rewrite Hit.
  - change (push_to_current it (s :: s' :: secs'))
      with (s :: push_to_current it (s' :: secs')).
    cbn [forallb]. by rewrite Hs, IH.
Qed.

Lemma parse_line_trimmed (secs : list Sec) (line : jsstring) :
  forallb (sec_strings is_trimmed) secs = true →
  forallb (sec_strings is_trimmed) (parse_line secs line) = true.
Proof.
  intros H. unfold parse_line. destruct (sectionMatch line) as [g1|].
  - rewrite forallb_app, H. cbn. unfold sec_strings. cbn.
    by rewrite trim_is_trimmed.
  - destruct (itemMatch line) as [[mark g2]|]; [|done].
    destruct secs as [|s secs]; [done|].
    apply push_to_current_strings; [done|]. apply trim_is_trimmed.
Qed.

Lemma parse_lines_trimmed (lines : list jsstring) (secs : list Sec) :
  forallb (sec_strings is_trimmed) secs = true →
  forallb (sec_strings is_trimmed) (parse_lines lines secs) = true.
Proof.
  revert secs. induction lines as [|line lines IH]; intros secs H; [done|].
  cbn [parse_lines fold_left]. apply IH. by apply parse_line_trimmed.
Qed.

Lemma parseContent_normalized (content : jsstring) :
  normalized (parseContent content) = true.
Proof.
  unfold normalized, all_strings, parseContent.
  pose proof (parse_lines_trimmed (split_lf content) [] eq_refl) as H.
  destruct (parse_lines (split_lf content) []); [reflexivity | exact H].
Qed.

(** C9.  Every document that the parser returns is normalized: no section
    name and no item text starts or ends with a character that [trim]
    strips.  This holds for the parse of every text and for every run of
    [parseTodoMd], which always returns. *)
Theorem parse_normalized :
  (∀ content, normalized (parseContent content) = true)
  ∧ (∀ w, match parseTodoMd w with
          | Returned d _ => normalized d = true
          | Thrown _ => False
          end).
Proof.
  split; [apply parseContent_normalized|].
  intros w. destruct (parseTodoMd_returns w) as (d & w' & evs & -> & -> & _).
  destruct (todo_file w'); [apply parseContent_normalized | reflexivity].
Qed.

(** ** The frame of the handlers *)

Lemma keep_file {A} (cmd : jsstring) (a b : A) :
  cmd ≠ lit "reset --hard origin/master" →
  (if decide (cmd = lit "reset --hard origin/master") then a else b) = b.
Proof. intros H. by case_decide. Qed.

Lemma add_is_not_reset : lit "add TODO.md" ≠ lit "reset --hard origin/master".
Proof. by vm_compute. Qed.

Lemma status_is_not_reset : lit "status --porcelain" ≠ lit "reset --hard origin/master".
Proof. by vm_compute. Qed.

Lemma push_is_not_reset : lit "push origin master" ≠ lit "reset --hard origin/master".
Proof. by vm_compute. Qed.

Lemma commit_is_not_reset (rest : jsstring) :
  lit "commit -m " ++ rest ≠ lit "reset --hard origin/master".
Proof. intros H. vm_compute in H. discriminate H. Qed.

(** [commitAndPush] swallows every failure of git, leaves the file alone
    and starts with [git add TODO.md]. *)
Lemma commitAndPush_returns (message : jsstring) (w : World) :
  ∃ w' evs, commitAndPush message w = Returned () w'
    ∧ todo_file w' = todo_file w
    ∧ events w' = events w ++ EvGit (lit "add TODO.md") :: evs.
Proof.
  unfold commitAndPush, try_catch, mbind, M_bind, mret, M_ret, git, log.
  destruct (git_replies w) as [|[|o1 t1] [|[|o2 t2] rs]]; cbn;
    try (eexists _, _; split; [reflexivity|]; cbn;
         rewrite ?(keep_file _ _ _ add_is_not_reset),
                 ?(keep_file _ _ _ status_is_not_reset), <- ?app_assoc;
         split; reflexivity).
  destruct (trim o2) as [|c st]; cbn.
  { eexists _, _; split; [reflexivity|]; cbn.
    rewrite ?(keep_file _ _ _ add_is_not_reset),
            ?(keep_file _ _ _ status_is_not_reset), <- ?app_assoc.
    split; reflexivity. }
  destruct rs as [|[|o3 t3] [|[|o4 t4] rs]]; cbn;
    eexists _, _; (split; [reflexivity|]); cbn;
    rewrite ?(keep_file _ _ _ add_is_not_reset),
            ?(keep_file _ _ _ status_is_not_reset),
            ?(keep_file _ _ _ push_is_not_reset),
            ?(keep_file _ _ _ (commit_is_not_reset _)), <- ?app_assoc;
    split; reflexivity.
Qed.

(** [saveTodoMd] returns, having written the serialized document and
    started a publish; the file then holds that text. *)
Lemma saveTodoMd_returns (data : Document) (message : jsstring) (w : World) :
  ∃ w' evs, saveTodoMd data message w = Returned () w'
    ∧ todo_file w' = Some (serializeTodoMd data)
    ∧ events w' = events w ++ EvWrite (serializeTodoMd data)
                  :: EvGit (lit "add TODO.md") :: evs.
Proof.
  unfold saveTodoMd, mbind, M_bind, writeFileSync.
  match goal with |- context [commitAndPush ?m ?w1] =>
    destruct (commitAndPush_returns m w1) as (w' & evs & -> & Hfile & Hev) end.
  exists w', evs. split; [done|]. split; [done|].
  rewrite Hev. unfold log. cbn. by rewrite <- app_assoc.
Qed.

(** Every handler returns what its change makes of the parsed document,
    and never throws.  It saves exactly when the guard of the change
    holds; otherwise the world is as [parseTodoMd] left it. *)
Lemma respond_returns (change : Change) (w : World) :
  ∃ d w0 w', parseTodoMd w = Returned d w0
    ∧ respond change w = Returned (apply change d) w'
    ∧ match change d with
      | Some (d', message) => saveTodoMd d' message w0 = Returned () w'
      | None => w' = w0
      end.
Proof.
  destruct (parseTodoMd_returns w) as (d & w0 & evs & Hparse & _).
  unfold respond, apply, mbind, M_bind. rewrite Hparse.
  destruct (change d) as [[d' message]|] eqn:Hch.
  - destruct (saveTodoMd_returns d' message w0) as (w' & evs' & Hsave & _).
    exists d, w0, w'. by rewrite Hch, Hsave.
  - exists d, w0, w0. by rewrite Hch.
Qed.

Lemma respond_guard_fails (change : Change) (w w0 : World) (d : Document) :
  parseTodoMd w = Returned d w0 → change d = None →
  respond change w = Returned d w0.
Proof.
  intros Hparse Hch. unfold respond, mbind, M_bind. by rewrite Hparse, Hch.
Qed.

(** ** Calls that address nothing *)

Lemma addresses_section_false (section : jsstring) (d : Document) :
  addresses_section section d = false → find_section section d = None.
Proof.
  unfold addresses_section. intros H%bool_decide_eq_false.
  destruct (find_section section d); [|done]. by destruct H.
Qed.

Lemma addresses_item_false (section : jsstring) (index : Z) (d : Document) :
  addresses_item section index d = false →
  match find_section section d with
  | Some (_, sec) => item_at (items sec) index = None
  | None => True
  end.
Proof.
  unfold addresses_item. destruct (find_section section d) as [[k sec]|]; [|done].
  intros H%bool_decide_eq_false.
  destruct (item_at (items sec) index); [|done]. by destruct H.
Qed.

(** C2, as amended.  When the section name matches no section
    ([addItem]) or the section name and index address no item
    ([toggleItem], [editItem], [removeItem]), the call returns the parsed
    pre-call document and ends in the very world that [parseTodoMd] left:
    it writes no file and attempts no publish. *)
Theorem unaddressed_call_only_reads
    (w w' : World) (d : Document) (section new_text : jsstring) (index : Z) :
  parseTodoMd w = Returned d w' →
  (addresses_section section d = false →
     post_api_todos section new_text w = Returned d w')
  ∧ (addresses_item section index d = false →
       put_api_todos_toggle section index w = Returned d w'
       ∧ put_api_todos_edit section index new_text w = Returned d w'
       ∧ delete_api_todos section index w = Returned d w')
  ∧ wrote_file w w' = false ∧ publish_attempted w w' = false.
Proof.
  intros Hparse. split; [|split].
  - intros H%addresses_section_false.
    apply respond_guard_fails; [done|]. unfold addItem_change. by rewrite H.
  - intros H%addresses_item_false.
    split; [|split]; (apply respond_guard_fails; [done|]);
      unfold toggleItem_change, editItem_change, removeItem_change;
      destruct (find_section section d) as [[k sec]|]; try done; by rewrite H.
  - destruct (parseTodoMd_returns w) as (d2 & w2 & evs & H2 & _ & Hev & Hw & Hp).
    rewrite Hparse in H2. injection H2 as -> ->.
    unfold wrote_file, publish_attempted. by rewrite (events_since_app _ _ _ Hev).
Qed.

Lemma unaddressed_call_only_reads_witness :
  let w' := world_of (parseTodoMd sample_world) in
  post_api_todos (lit "Nope") (lit "x") sample_world = Returned work_ship w'
  ∧ delete_api_todos (lit "Nope") 7 sample_world = Returned work_ship w'
  ∧ publish_attempted sample_world w' = false.
Proof.
  intros w'.
  destruct (unaddressed_call_only_reads sample_world w' work_ship
              (lit "Nope") (lit "x") 7 eq_refl) as (Hadd & Hidx & _ & Hpub).
  split; [exact (Hadd eq_refl)|].
  split; [exact (proj2 (proj2 (Hidx eq_refl))) | exact Hpub].
Defined.

(** C2, as stated, fails: a call of [addItem] with a section name that
    matches nothing returns the parsed document, but it never reaches
    [saveTodoMd], so no publish is attempted. *)
Lemma unknown_section_not_published :
  match post_api_todos (lit "Nope") (lit "x") sample_world with
  | Returned d w' =>
      d = work_ship
      ∧ addresses_section (lit "Nope") d = false
      ∧ publish_attempted sample_world w' ≠ true
  | Thrown _ => False
  end.
Proof. by vm_compute. Qed.

(** C10.  [addSection] with an absent or empty name returns the parsed
    document and ends in the world that [parseTodoMd] left: the section
    list is unchanged, no file is written and no publish is attempted. *)
Theorem addSection_without_name_only_reads (w : World) (name_arg : option jsstring) :
  name_arg = None ∨ name_arg = Some [] →
  ∃ d w', parseTodoMd w = Returned d w'
    ∧ post_api_sections name_arg w = Returned d w'
    ∧ wrote_file w w' = false ∧ publish_attempted w w' = false.
Proof.
  intros Hname.
  destruct (parseTodoMd_returns w) as (d & w' & evs & Hparse & _ & Hev & Hw & Hp).
  exists d, w'. split; [done|]. split.
  - apply respond_guard_fails; [done|]. by destruct Hname as [-> | ->].
  - unfold wrote_file, publish_attempted. by rewrite (events_since_app _ _ _ Hev).
Qed.

Lemma addSection_without_name_only_reads_witness :
  ∃ d w', parseTodoMd sample_world = Returned d w'
    ∧ post_api_sections (Some []) sample_world = Returned d w'
    ∧ wrote_file sample_world w' = false
    ∧ publish_attempted sample_world w' = false.
Proof.
  apply (addSection_without_name_only_reads sample_world (Some [])).
  right. reflexivity.
Defined.

(** ** Adding a section *)

Lemma find_section_None (nm : jsstring) (d : Document) :
  find_section nm d = None ↔ Forall (λ s, name s ≠ nm) (sections d).
Proof. apply list_find_None. Qed.

Lemma find_section_Exists (nm : jsstring) (d : Document) :
  Exists (λ s, name s = nm) (sections d) → is_Some (find_section nm d).
Proof.
  intros (s & Hs & Hnm)%Exists_exists.
  by apply (list_find_elem_of (λ s, name s = nm) _ s).
Qed.

(** C7, as amended.  When a section of that name exists, [addSection]
    leaves the document unchanged; otherwise, when the name is not empty,
    it appends the section [{name, items: []}] at the end; with the empty
    name it leaves the document unchanged. *)
Theorem addSection_appends_fresh (d : Document) (nm : jsstring) :
  (Exists (λ s, name s = nm) (sections d) → addSection (Some nm) d = d)
  ∧ (Forall (λ s, name s ≠ nm) (sections d) → nm ≠ [] →
       addSection (Some nm) d = mkDoc (sections d ++ [mkSec nm []]))
  ∧ (nm = [] → addSection (Some nm) d = d).
Proof.
  unfold addSection, apply, addSection_change. split; [|split].
  - intros [x Hx]%find_section_Exists. destruct nm; [done|]. by rewrite Hx.
  - intros H%find_section_None Hnm. destruct nm; [done|]. by rewrite H.
  - by intros ->.
Qed.

Lemma addSection_appends_fresh_witness :
  addSection (Some (lit "Work")) work_ship = work_ship
  ∧ addSection (Some (lit "Home")) work_ship
    = mkDoc (sections work_ship ++ [mkSec (lit "Home") []])
  ∧ addSection (Some []) work_ship = work_ship.
Proof.
  split; [|split].
  - apply (proj1 (addSection_appends_fresh work_ship (lit "Work"))).
    apply Exists_cons_hd. reflexivity.
  - apply (proj1 (proj2 (addSection_appends_fresh work_ship (lit "Home")))).
    + repeat constructor. vm_compute. discriminate.
    + vm_compute. discriminate.
  - apply (proj2 (proj2 (addSection_appends_fresh work_ship []))). reflexivity.
Defined.

(** C7, as stated, fails: no section of [buy_milk] has the empty name,
    and still [addSection] with the empty name appends nothing. *)
Lemma addSection_empty_name_not_appended :
  Forall (λ s, name s ≠ []) (sections buy_milk)
  ∧ addSection (Some []) buy_milk ≠ mkDoc (sections buy_milk ++ [mkSec [] []]).
Proof. split; [repeat constructor|]; by vm_compute. Qed.

(** ** Toggling an item *)

Lemma find_section_insert (nm : jsstring) (d : Document) (k : nat) (sec sec' : Sec) :
  find_section nm d = Some (k, sec) → name sec' = nm →
  find_section nm (mkDoc (<[k := sec']> (sections d))) = Some (k, sec').
Proof.
  unfold find_section. cbn [sections].
  intros (Hk & Hnm & Hleast)%list_find_Some Hnm'.
  apply list_find_insert_Some. right; left.
  split_and!; [done..| |done|done]. by apply lookup_lt_Some in Hk.
Qed.

Lemma item_at_Some (its : list Item) (index : Z) (it : Item) :
  item_at its index = Some it → its !! Z.to_nat index = Some it.
Proof. unfold item_at. by destruct (0 <=? index)%Z. Qed.

Lemma item_at_insert (its : list Item) (index : Z) (it it' : Item) :
  item_at its index = Some it →
  item_at (<[Z.to_nat index := it']> its) index = Some it'.
Proof.
  unfold item_at. destruct (0 <=? index)%Z; [|done].
  intros H%lookup_lt_Some. by apply list_lookup_insert_eq.
Qed.

(** After a toggle that hit an item, the same name finds the section at
    the same place with the item flipped. *)
Lemma toggleItem_hit (section : jsstring) (index : Z) (d : Document)
    (k : nat) (sec : Sec) (it : Item) :
  find_section section d = Some (k, sec) →
  item_at (items sec) index = Some it →
  let flipped := mkItem (negb (done it)) (text it) in
  let sec1 := mkSec (name sec) (<[Z.to_nat index := flipped]> (items sec)) in
  toggleItem section index d = mkDoc (<[k := sec1]> (sections d))
  ∧ find_section section (toggleItem section index d) = Some (k, sec1)
  ∧ item_at (items sec1) index = Some flipped.
Proof.
  intros Hf Hi flipped sec1.
  assert (Ht : toggleItem section index d = mkDoc (<[k := sec1]> (sections d))).
  { unfold toggleItem, apply, toggleItem_change. by rewrite Hf, Hi. }
  split; [done|]. rewrite Ht. split.
  - apply (find_section_insert _ _ _ sec); [done|].
    unfold find_section in Hf. by apply list_find_Some in Hf as (_ & Hnm & _).
  - by apply (item_at_insert _ _ it).
Qed.

Lemma toggleItem_involutive (section : jsstring) (index : Z) (d : Document) :
  toggleItem section index (toggleItem section index d) = d.
Proof.
  destruct (find_section section d) as [[k sec]|] eqn:Hf.
  2: { assert (H : toggleItem section index d = d)
         by (unfold toggleItem, apply, toggleItem_change; by rewrite Hf).
       by rewrite !H. }
  destruct (item_at (items sec) index) as [it|] eqn:Hi.
  2: { assert (H : toggleItem section index d = d)
         by (unfold toggleItem, apply, toggleItem_change; by rewrite Hf, Hi).
       by rewrite !H. }
  destruct (toggleItem_hit _ _ _ _ _ _ Hf Hi) as (Ht & Hf1 & Hi1).
  destruct (toggleItem_hit _ _ _ _ _ _ Hf1 Hi1) as (Ht2 & _).
  rewrite Ht2, Ht. cbn [sections name items done text].
  rewrite negb_involutive, !list_insert_insert_eq.
  rewrite (list_insert_id (items sec)).
  - rewrite list_insert_id; [by destruct d|].
    unfold find_section in Hf. apply list_find_Some in Hf as (Hk & _).
    by destruct sec.
  - apply item_at_Some in Hi. by destruct it.
Qed.

(** C6.  When the name "General" finds a section whose item 0 is the open
    item "buy milk", [toggleItem("General", 0)] makes that item the done
    item "buy milk", and a second [toggleItem("General", 0)] gives the
    first document back; toggling any section and index twice is the
    identity on documents. *)
Theorem toggleItem_twice (d : Document) (k : nat) (sec : Sec) :
  find_section (lit "General") d = Some (k, sec) →
  item_at (items sec) 0 = Some (mkItem false (lit "buy milk")) →
  (∃ sec1, find_section (lit "General") (toggleItem (lit "General") 0 d)
           = Some (k, sec1)
           ∧ item_at (items sec1) 0 = Some (mkItem true (lit "buy milk")))
  ∧ toggleItem (lit "General") 0 (toggleItem (lit "General") 0 d) = d
  ∧ (∀ section index d0,
       toggleItem section index (toggleItem section index d0) = d0).
Proof.
  intros Hf Hi. split; [|split].
  - destruct (toggleItem_hit _ _ _ _ _ _ Hf Hi) as (_ & Hf1 & Hi1). eauto.
  - apply toggleItem_involutive.
  - intros section index d0. apply toggleItem_involutive.
Qed.

Lemma toggleItem_twice_witness :
  toggleItem (lit "General") 0 buy_milk
  = mkDoc [mkSec (lit "General") [mkItem true (lit "buy milk")]]
  ∧ toggleItem (lit "General") 0 (toggleItem (lit "General") 0 buy_milk) = buy_milk.
Proof.
  split; [reflexivity|].
  exact (proj1 (proj2 (toggleItem_twice buy_milk 0
                         (mkSec (lit "General") [mkItem false (lit "buy milk")])
                         eq_refl eq_refl))).
Defined.

(** ** Removing sections *)

Lemma removeSection_sections (nm : jsstring) (d : Document) :
  sections (removeSection nm d)
  = match filter (λ s, name s ≠ nm) (sections d) with
    | [] => [general]
    | s :: kept => s :: kept
    end.
Proof.
  unfold removeSection, apply, removeSection_change. cbn [sections].
  by destruct (filter (λ s, name s ≠ nm) (sections d)).
Qed.

Lemma removeSection_emptied (nm : jsstring) (d : Document) :
  filter (λ s, name s ≠ nm) (sections d) = [] →
  removeSection nm d = mkDoc [general].
Proof.
  intros H. unfold removeSection, apply, removeSection_change. by rewrite H.
Qed.

Lemma removeSection_kept (nm : jsstring) (d : Document) :
  filter (λ s, name s ≠ nm) (sections d) ≠ [] →
  sections (removeSection nm d) = filter (λ s, name s ≠ nm) (sections d).
Proof.
  intros H. rewrite removeSection_sections.
  by destruct (filter (λ s, name s ≠ nm) (sections d)).
Qed.

Lemma removeSection_nonempty (nm : jsstring) (d : Document) :
  sections (removeSection nm d) ≠ [].
Proof.
  rewrite removeSection_sections.
  by destruct (filter (λ s, name s ≠ nm) (sections d)).
Qed.

Lemma removeSection_default (nm : jsstring) :
  removeSection nm (mkDoc [general]) = mkDoc [general].
Proof.
  unfold removeSection, apply, removeSection_change. cbn [sections].
  rewrite filter_cons, filter_nil. by case_decide.
Qed.

Lemma removeSections_default (names : list jsstring) :
  removeSections names (mkDoc [general]) = mkDoc [general].
Proof.
  induction names as [|nm names IH]; [done|].
  unfold removeSections in *. cbn [fold_left]. by rewrite removeSection_default.
Qed.

Lemma removeSections_app (pre post : list jsstring) (d : Document) :
  removeSections (pre ++ post) d = removeSections post (removeSections pre d).
Proof. apply fold_left_app. Qed.

(** Once a call has left no section of the old list, the document is the
    default one and stays so through all later calls. *)
Lemma removeSections_emptied (d : Document) (pre post : list jsstring) (nm : jsstring) :
  filter (λ s, name s ≠ nm) (sections (removeSections pre d)) = [] →
  removeSections (pre ++ nm :: post) d = mkDoc [general].
Proof.
  intros H. rewrite removeSections_app.
  change (removeSections (nm :: post) (removeSections pre d))
    with (removeSections post (removeSection nm (removeSections pre d))).
  by rewrite removeSection_emptied, removeSections_default.
Qed.

(** C3.  If some call of a run of [removeSection] calls leaves no
    section of the list it found, the run ends in the document with
    exactly the one empty section "General", whatever calls follow.  One
    call keeps, in order, exactly the sections whose name differs from
    the argument, or, when all names equal it, gives that default
    document; its result always has a section. *)
Theorem removeSection_keeps_one_section
    (d : Document) (pre post : list jsstring) (nm : jsstring) :
  filter (λ s, name s ≠ nm) (sections (removeSections pre d)) = [] →
  removeSections (pre ++ nm :: post) d = mkDoc [general]
  ∧ (∀ d0 nm0,
       sections (removeSection nm0 d0) ≠ []
       ∧ (sections (removeSection nm0 d0)
            = filter (λ s, name s ≠ nm0) (sections d0)
          ∨ (Forall (λ s, name s = nm0) (sections d0)
             ∧ removeSection nm0 d0 = mkDoc [general]))).
Proof.
  intros H. split; [by apply removeSections_emptied|].
  intros d0 nm0. split; [apply removeSection_nonempty|].
  destruct (filter (λ s, name s ≠ nm0) (sections d0)) as [|s kept] eqn:Hk.
  - right. split; [|by apply removeSection_emptied].
    apply Forall_forall. intros s Hs.
    destruct (decide (name s = nm0)) as [|Hne]; [done|].
    by destruct (filter_nil_not_elem_of _ _ s Hk Hne).
  - left. rewrite <- Hk. apply removeSection_kept. by rewrite Hk.
Qed.

Lemma removeSection_keeps_one_section_witness :
  removeSections [lit "Work"; lit "General"; lit "Other"] work_ship
  = mkDoc [general].
Proof.
  apply (removeSection_keeps_one_section work_ship []
           [lit "General"; lit "Other"] (lit "Work")).
  reflexivity.
Defined.

(** The same for a run whose names cover every section of the document. *)
Lemma removeSections_cases (names : list jsstring) (d : Document) :
  removeSections names d = mkDoc [general]
  ∨ sections (removeSections names d)
    = filter (λ s, name s ∉ names) (sections d).
Proof.
  revert d. induction names as [|nm names IH]; intros d.
  - right. cbn. symmetry. induction (sections d) as [|s l IHl]; [done|].
    rewrite filter_cons_True; [by rewrite IHl | apply not_elem_of_nil].
  - change (removeSections (nm :: names) d)
      with (removeSections names (removeSection nm d)).
    destruct (filter (λ s, name s ≠ nm) (sections d)) as [|s kept] eqn:Hk.
    + left. by rewrite removeSection_emptied, removeSections_default.
    + destruct (IH (removeSection nm d)) as [Hd|Hs]; [by left|right].
      rewrite Hs, removeSection_kept by by rewrite Hk.
      rewrite list_filter_filter. apply list_filter_iff.
      intros x. rewrite not_elem_of_cons. tauto.
Qed.

Lemma removeSections_covering (names : list jsstring) (d : Document) :
  names ≠ [] → Forall (λ s, name s ∈ names) (sections d) →
  removeSections names d = mkDoc [general].
Proof.
  intros Hne Hall.
  assert (Hnil : filter (λ s, name s ∉ names) (sections d) = []).
  { induction Hall as [|s l Hin _ IHl]; [done|].
    rewrite filter_cons_False; [done|]. intros Hn. by apply Hn. }
  destruct (removeSections_cases names d) as [|Hs]; [done|].
  exfalso.
  rewrite Hnil in Hs.
  destruct (last names) as [nm|] eqn:Hlast; [|by apply last_None in Hlast].
  apply last_Some in Hlast as [pre ->].
  rewrite removeSections_app in Hs.
  by apply (removeSection_nonempty nm (removeSections pre d)).
Qed.

(** ** The handlers, in terms of the operations *)

(** [DELETE /api/sections] returns [removeSection] of the parsed document
    and leaves its serialization in the file: it saves on every call. *)
Lemma delete_api_sections_returns (nm : jsstring) (w : World) :
  ∃ d w0 w', parseTodoMd w = Returned d w0
    ∧ delete_api_sections nm w = Returned (removeSection nm d) w'
    ∧ todo_file w' = Some (serializeTodoMd (removeSection nm d))
    ∧ publish_attempted w0 w' = true.
Proof.
  destruct (respond_returns (removeSection_change nm) w)
    as (d & w0 & w' & Hparse & Hres & Hsave).
  exists d, w0, w'. split; [done|]. split; [done|].
  unfold removeSection, apply. unfold removeSection_change in *.
  match type of Hsave with saveTodoMd ?d' ?m _ = _ =>
    destruct (saveTodoMd_returns d' m w0) as (w2 & evs & Hs2 & Hfile & Hev) end.
  rewrite Hsave in Hs2. injection Hs2 as <-. split; [done|].
  unfold publish_attempted. rewrite (events_since_app _ _ _ Hev).
  cbn [existsb starts_publish]. by rewrite bool_decide_eq_true_2.
Qed.

(** [PUT /api/todos/toggle] returns [toggleItem] of the parsed document. *)
Lemma put_api_todos_toggle_returns (section : jsstring) (index : Z) (w : World) :
  ∃ d w0 w', parseTodoMd w = Returned d w0
    ∧ put_api_todos_toggle section index w
      = Returned (toggleItem section index d) w'.
Proof.
  destruct (respond_returns (toggleItem_change section index) w)
    as (d & w0 & w' & Hparse & Hres & _). by exists d, w0, w'.
Qed.

(** [POST /api/sections] returns [addSection] of the parsed document. *)
Lemma post_api_sections_returns (name_arg : option jsstring) (w : World) :
  ∃ d w0 w', parseTodoMd w = Returned d w0
    ∧ post_api_sections name_arg w = Returned (addSection name_arg d) w'.
Proof.
  destruct (respond_returns (addSection_change name_arg) w)
    as (d & w0 & w' & Hparse & Hres & _). by exists d, w0, w'.
Qed.

(** ** Why the round trip needs each of its conditions *)

Lemma roundtrip_drops_empty_text :
  let d := mkDoc [mkSec (lit "General") [mkItem false []]] in
  all_strings plain_text d = true
  ∧ parseContent (serializeTodoMd d) = mkDoc [general].
Proof. split; reflexivity. Qed.

Lemma roundtrip_drops_carriage_return :
  let d := mkDoc [mkSec (lit "General") [mkItem true (lit "a" ++ [CR] ++ lit "b")]] in
  all_strings plain_text d = true
  ∧ parseContent (serializeTodoMd d) = mkDoc [general].
Proof. split; reflexivity. Qed.

Lemma roundtrip_drops_empty_name :
  let d := mkDoc [mkSec (lit "A") []; mkSec [] [mkItem false (lit "x")]] in
  all_strings plain_text d = true
  ∧ parseContent (serializeTodoMd d)
    = mkDoc [mkSec (lit "A") [mkItem false (lit "x")]].
Proof. split; reflexivity. Qed.

Lemma roundtrip_fills_empty_document :
  parseContent (serializeTodoMd (mkDoc [])) = mkDoc [general].
Proof. reflexivity. Qed.

(** ** Successive calls through the file

    With git out of reach every run of it fails and is swallowed, so the
    next call reads the file that the call before wrote. *)

Lemma parseTodoMd_offline (w : World) (content : jsstring) :
  git_replies w = [] → todo_file w = Some content →
  ∃ w', parseTodoMd w = Returned (parseContent content) w'
    ∧ git_replies w' = [] ∧ todo_file w' = Some content.
Proof.
  intros Hg Hf.
  unfold parseTodoMd, pullLatest, try_catch, mbind, M_bind, mret, M_ret, git,
    existsSync, readFileSync.
  rewrite Hg. cbn. rewrite Hf. cbn. eexists. split; [reflexivity|]. by cbn.
Qed.

Lemma saveTodoMd_offline (data : Document) (message : jsstring) (w : World) :
  git_replies w = [] →
  ∃ w', saveTodoMd data message w = Returned () w'
    ∧ git_replies w' = [] ∧ todo_file w' = Some (serializeTodoMd data).
Proof.
  intros Hg.
  unfold saveTodoMd, writeFileSync, commitAndPush, try_catch, mbind, M_bind,
    mret, M_ret, git.
  cbn. rewrite Hg. eexists. split; [reflexivity|]. by cbn.
Qed.

Lemma respond_offline (change : Change) (d : Document) (w : World) :
  roundtrippable d = true →
  git_replies w = [] → todo_file w = Some (serializeTodoMd d) →
  ∃ w', respond change w = Returned (apply change d) w'
    ∧ git_replies w' = []
    ∧ todo_file w' = Some (serializeTodoMd (apply change d)).
Proof.
  intros Hd Hg Hf.
  destruct (parseTodoMd_offline w _ Hg Hf) as (w0 & Hparse & Hg0 & Hf0).
  rewrite roundtrip_on_storable in Hparse by done.
  unfold respond, apply, mbind, M_bind. rewrite Hparse.
  destruct (change d) as [[d' message]|].
  - destruct (saveTodoMd_offline d' message w0 Hg0) as (w' & -> & Hg' & Hf').
    by exists w'.
  - by exists w0.
Qed.

Lemma forallb_lookup {A} (p : A → bool) (l : list A) (i : nat) (x : A) :
  forallb p l = true → l !! i = Some x → p x = true.
Proof.
  rewrite forallb_forall. intros H Hx. apply H.
  apply list_elem_of_In. by apply list_elem_of_lookup_2 with i.
Qed.

Lemma forallb_insert {A} (p : A → bool) (l : list A) (i : nat) (x : A) :
  forallb p l = true → p x = true → forallb p (<[i := x]> l) = true.
Proof.
  intros Hl Hx. revert i. induction l as [|y l IH]; intros i; [done|].
  cbn [forallb] in Hl. apply andb_prop in Hl as [Hy Hl].
  destruct i as [|i]; cbn; [by rewrite Hx, Hl | by rewrite Hy, IH].
Qed.

Lemma roundtrippable_insert (d : Document) (k : nat) (sec : Sec) :
  roundtrippable d = true → sec_strings storable sec = true →
  roundtrippable (mkDoc (<[k := sec]> (sections d))) = true.
Proof.
  unfold roundtrippable, all_strings. cbn [sections]. intros Hd Hsec.
  destruct (sections d) as [|s secs] eqn:Hs; [done|].
  pose proof (forallb_insert _ _ k _ Hd Hsec) as H.
  by destruct k.
Qed.

Lemma toggleItem_roundtrippable (section : jsstring) (index : Z) (d : Document) :
  roundtrippable d = true → roundtrippable (toggleItem section index d) = true.
Proof.
  intros Hd. unfold toggleItem, apply, toggleItem_change.
  destruct (find_section section d) as [[k sec]|] eqn:Hf; [|done].
  destruct (item_at (items sec) index) as [it|] eqn:Hi; [|done].
  apply roundtrippable_insert; [done|].
  assert (Hsec : sec_strings storable sec = true).
  { unfold find_section in Hf. apply list_find_Some in Hf as (Hk & _).
    unfold roundtrippable, all_strings in Hd.
    destruct (sections d) as [|s l]; [done|].
    exact (forallb_lookup _ _ _ _ Hd Hk). }
  unfold sec_strings in *. cbn [name items].
  apply andb_prop in Hsec as [-> Hits]. cbn.
  apply forallb_insert; [done|]. cbn.
  apply item_at_Some in Hi. by apply (forallb_lookup _ _ _ _ Hits Hi).
Qed.

(** Two toggle requests in a row, the second reading what the first
    saved: on a file that holds a round-trippable document the second
    answer is the first document again. *)
Theorem toggle_twice_through_file
    (section : jsstring) (index : Z) (d : Document) (w : World) :
  roundtrippable d = true →
  git_replies w = [] → todo_file w = Some (serializeTodoMd d) →
  ∃ w1 w2,
    put_api_todos_toggle section index w
    = Returned (toggleItem section index d) w1
    ∧ put_api_todos_toggle section index w1 = Returned d w2.
Proof.
  intros Hd Hg Hf.
  destruct (respond_offline (toggleItem_change section index) d w Hd Hg Hf)
    as (w1 & H1 & Hg1 & Hf1).
  fold (toggleItem section index d) in H1, Hf1.
  destruct (respond_offline (toggleItem_change section index)
              (toggleItem section index d) w1
              (toggleItem_roundtrippable _ _ _ Hd) Hg1 Hf1)
    as (w2 & H2 & _).
  fold (toggleItem section index (toggleItem section index d)) in H2.
  rewrite toggleItem_involutive in H2.
  by exists w1, w2.
Qed.

Lemma toggle_twice_through_file_example :
  let w := mkWorld (Some (serializeTodoMd buy_milk)) [] [] in
  ∃ w1 w2,
    put_api_todos_toggle (lit "General") 0 w
    = Returned (toggleItem (lit "General") 0 buy_milk) w1
    ∧ put_api_todos_toggle (lit "General") 0 w1 = Returned buy_milk w2.
Proof.
  apply (toggle_twice_through_file (lit "General") 0 buy_milk); reflexivity.
Qed.

(** Through the file the second answer can differ when the document is
    not round-trippable: an item with empty text is lost by the save. *)
Lemma toggle_twice_through_file_lossy :
  let d := mkDoc [mkSec (lit "General")
                    [mkItem false (lit "buy milk"); mkItem false []]] in
  let w := mkWorld (Some (lit "## General" ++ [LF] ++ lit "- [ ] buy milk"
                          ++ [LF] ++ lit "- [ ]  ")) [] [] in
  parseContent (lit "## General" ++ [LF] ++ lit "- [ ] buy milk"
                ++ [LF] ++ lit "- [ ]  ") = d
  ∧ match put_api_todos_toggle (lit "General") 0 w with
    | Returned d1 w1 =>
        d1 = toggleItem (lit "General") 0 d
        ∧ match put_api_todos_toggle (lit "General") 0 w1 with
          | Returned d2 _ => d2 = buy_milk
          | Thrown _ => False
          end
    | Thrown _ => False
    end.
Proof. by vm_compute. Qed.

(** * Further properties of the code *)

(** ** Lines with a line terminator, and Windows line ends *)

Lemma after_prefix_Some (p s r : jsstring) :
  after_prefix p s = Some r → s = p ++ r.
Proof.
  revert s. induction p as [|a p IH]; intros s; cbn.
  - by intros [= ->].
  - destruct s as [|b s]; [done|].
    destruct (a =? b) eqn:E; [|done]. apply N.eqb_eq in E as ->.
    by intros ->%IH.
Qed.

Lemma has_line_terminator_app (a b : jsstring) :
  has_line_terminator (a ++ b) = has_line_terminator a || has_line_terminator b.
Proof. apply existsb_app. Qed.

Lemma dot_plus_no_terminator (s : jsstring) :
  dot_plus_to_end s = true → has_line_terminator s = false.
Proof.
  unfold dot_plus_to_end, has_line_terminator. destruct s as [|c s]; [done|].
  generalize (c :: s). clear. intros s. induction s as [|c s IH]; [done|].
  cbn. intros [Hc Hs]%andb_prop. apply negb_true_iff in Hc.
  by rewrite Hc, IH.
Qed.

Lemma sectionMatch_Some (line g : jsstring) :
  sectionMatch line = Some g →
  line = lit "## " ++ g ∧ dot_plus_to_end g = true.
Proof.
  unfold sectionMatch.
  destruct (after_prefix (lit "## ") line) as [rest|] eqn:Hp; [|done].
  destruct (dot_plus_to_end rest) eqn:Hd; [|done].
  intros [= <-]. by apply after_prefix_Some in Hp.
Qed.

Lemma itemMatch_Some (line : jsstring) (mark : N) (g : jsstring) :
  itemMatch line = Some (mark, g) →
  line = lit "- [" ++ mark :: lit "] " ++ g
  ∧ (mark = 32 ∨ mark = 120 ∨ mark = 88) ∧ dot_plus_to_end g = true.
Proof.
  unfold itemMatch.
  destruct (after_prefix (lit "- [") line) as [[|c rest]|] eqn:Hp; [done| |done].
  destruct ((c =? 32) || (c =? 120) || (c =? 88)) eqn:Hc; [|done].
  destruct (after_prefix (lit "] ") rest) as [body|] eqn:Hb; [|done].
  destruct (dot_plus_to_end body) eqn:Hd; [|done].
  intros [= <- <-].
  apply after_prefix_Some in Hp, Hb. subst. split; [done|]. split; [|done].
  apply orb_prop in Hc as [[H | H]%orb_prop | H]; apply N.eqb_eq in H; auto.
Qed.

Lemma matched_line_no_terminator (line : jsstring) :
  has_line_terminator line = true →
  sectionMatch line = None ∧ itemMatch line = None.
Proof.
  intros H. split.
  - destruct (sectionMatch line) as [g|] eqn:Hm; [|done].
    apply sectionMatch_Some in Hm as [-> Hg%dot_plus_no_terminator].
    rewrite has_line_terminator_app, Hg in H. by vm_compute in H.
  - destruct (itemMatch line) as [[mark g]|] eqn:Hm; [|done].
    apply itemMatch_Some in Hm as (-> & Hmark & Hg%dot_plus_no_terminator).
    rewrite has_line_terminator_app in H.
    change (has_line_terminator (mark :: lit "] " ++ g))
      with (is_line_terminator mark || has_line_terminator (lit "] " ++ g)) in H.
    rewrite has_line_terminator_app, Hg in H.
    by destruct Hmark as [-> | [-> | ->]]; vm_compute in H.
Qed.

(** X5.  A text whose every line is empty or holds a line terminator, as
    every line of a file with CR LF line ends does, parses to the default
    document: the headers and items of such a file are not seen. *)
Theorem parse_skips_lines_with_terminator (content : jsstring) :
  forallb (λ line, bool_decide (line = []) || has_line_terminator line)
          (split_lf content) = true →
  parseContent content = mkDoc [general].
Proof.
  intros H. unfold parseContent.
  rewrite <- (app_nil_r (split_lf content)).
  rewrite lines_before_first_header_ignored; [done|].
  rewrite forallb_forall in H |- *. intros line Hin.
  apply bool_decide_eq_true. specialize (H line Hin).
  apply orb_prop in H as [->%bool_decide_eq_true | H]; [done|].
  by apply matched_line_no_terminator.
Qed.

Lemma parse_skips_lines_with_terminator_witness :
  parseContent crlf_file = mkDoc [general].
Proof. apply parse_skips_lines_with_terminator. reflexivity. Defined.

(** ** What the parser stores *)

Lemma push_to_current_length (it : Item) (secs : list Sec) :
  length (push_to_current it secs) = length secs.
Proof.
  induction secs as [|s secs IH]; [done|].
  destruct secs as [|s' secs']; [done|].
  change (push_to_current it (s :: s' :: secs'))
    with (s :: push_to_current it (s' :: secs')).
  cbn [length]. by rewrite IH.
Qed.

Lemma parse_line_length (secs : list Sec) (line : jsstring) :
  length (parse_line secs line)
  = (length secs + header_count [line])%nat.
Proof.
  unfold parse_line, header_count, is_header.
  rewrite filter_cons, filter_nil.
  destruct (sectionMatch line) as [g|] eqn:Hm.
  - rewrite length_app. case_decide as Hd; [done|]. by destruct Hd.
  - case_decide as Hd; [by destruct Hd as [? [=]]|]. cbn. rewrite Nat.add_0_r.
    destruct (itemMatch line) as [[mark g]|]; [|done].
    destruct secs; [done|]. apply push_to_current_length.
Qed.

(** X7.  The parser makes one section per header line, and the default
    section when there is none. *)
Theorem parse_section_count (content : jsstring) :
  length (sections (parseContent content))
  = Nat.max 1 (header_count (split_lf content)).
Proof.
  assert (H : ∀ lines secs,
             length (parse_lines lines secs)
             = (length secs + header_count lines)%nat).
  { induction lines as [|line lines IH]; intros secs; cbn [parse_lines fold_left].
    - cbn. lia.
    - fold (parse_lines lines (parse_line secs line)).
      rewrite IH, parse_line_length. unfold header_count.
      rewrite (filter_cons _ line lines), filter_cons, filter_nil.
      case_decide; cbn; lia. }
  unfold parseContent. specialize (H (split_lf content) []).
  destruct (parse_lines (split_lf content) []); cbn in *; lia.
Qed.

(** What holds of every trimmed capture of every line holds of every
    string the parser stores. *)
Lemma parse_lines_strings (p : jsstring → bool) (lines : list jsstring) (secs : list Sec) :
  (∀ line g, line ∈ lines → sectionMatch line = Some g → p (trim g) = true) →
  (∀ line mark g, line ∈ lines → itemMatch line = Some (mark, g) →
                  p (trim g) = true) →
  forallb (sec_strings p) secs = true →
  forallb (sec_strings p) (parse_lines lines secs) = true.
Proof.
  revert secs. induction lines as [|line lines IH]; intros secs Hh Hi Hs; [done|].
  cbn [parse_lines fold_left]. apply IH.
  - intros l g Hl. apply Hh. by right.
  - intros l m g Hl. apply Hi. by right.
  - unfold parse_line. destruct (sectionMatch line) as [g1|] eqn:Hm.
    + rewrite forallb_app, Hs. cbn. unfold sec_strings. cbn.
      by rewrite (Hh line g1) by (done || left).
    + destruct (itemMatch line) as [[mark g2]|] eqn:Hm2; [|done].
      destruct secs as [|s secs]; [done|].
      apply push_to_current_strings; [done|]. cbn.
      apply (Hi line mark g2); [left|done].
Qed.

Lemma trim_inside (s : jsstring) : ∃ p q, s = p ++ trim s ++ q.
Proof.
  destruct (trimStart_suffix s) as [p Hp].
  destruct (trimEnd_prefix (trimStart s)) as [q Hq].
  exists p, q. unfold trim. by rewrite <- Hq.
Qed.

Lemma trim_clean (g : jsstring) : dot_plus_to_end g = true → clean (trim g) = true.
Proof.
  intros Hg%dot_plus_no_terminator. unfold clean.
  rewrite trim_is_trimmed. cbn. apply negb_true_iff.
  destruct (trim_inside g) as (p & q & Hpq). rewrite Hpq in Hg.
  rewrite !has_line_terminator_app in Hg.
  by apply orb_false_elim in Hg as [_ [? _]%orb_false_elim].
Qed.

Lemma parseContent_clean (content : jsstring) :
  all_strings clean (parseContent content) = true.
Proof.
  unfold all_strings, parseContent.
  assert (H : forallb (sec_strings clean) (parse_lines (split_lf content) []) = true).
  { apply parse_lines_strings; [| |done].
    - intros line g _ [_ Hg]%sectionMatch_Some. by apply trim_clean.
    - intros line mark g _ (_ & _ & Hg)%itemMatch_Some. by apply trim_clean. }
  destruct (parse_lines (split_lf content) []); [reflexivity | exact H].
Qed.

(** X6.  No section name and no item text of a parsed document holds a line
    terminator: every stored string fits on one line of the file. *)
Theorem parse_strings_on_one_line (content : jsstring) :
  all_strings (λ s, negb (has_line_terminator s)) (parseContent content) = true.
Proof.
  pose proof (parseContent_clean content) as H.
  unfold all_strings in *. rewrite forallb_forall in H |- *.
  intros s Hs. specialize (H s Hs). unfold sec_strings, clean in *.
  apply andb_prop in H as [[_ Hn]%andb_prop Hi]. rewrite Hn. cbn.
  rewrite forallb_forall in Hi |- *. intros it Hit.
  by apply Hi in Hit as [_ ?]%andb_prop.
Qed.

(** ** Header-led blocks *)

Lemma push_to_current_app (it : Item) (a b : list Sec) :
  b ≠ [] → push_to_current it (a ++ b) = a ++ push_to_current it b.
Proof.
  intros Hb. induction a as [|s a IH]; [done|].
  cbn [app]. destruct (a ++ b) as [|s' l] eqn:Hab.
  - by destruct a, b.
  - change (push_to_current it (s :: s' :: l))
      with (s :: push_to_current it (s' :: l)).
    by rewrite IH.
Qed.

Lemma parse_line_app (a b : list Sec) (line : jsstring) :
  b ≠ [] →
  parse_line (a ++ b) line = a ++ parse_line b line ∧ parse_line b line ≠ [].
Proof.
  intros Hb. unfold parse_line. destruct (sectionMatch line) as [g|].
  - rewrite <- app_assoc. split; [done|]. by destruct b.
  - destruct (itemMatch line) as [[mark g]|]; [|done].
    destruct b as [|s b]; [done|]. destruct (a ++ s :: b) as [|s' l] eqn:Hab.
    { by destruct a. }
    rewrite <- Hab, push_to_current_app by done. split; [done|].
    intros Hnil. apply (f_equal length) in Hnil.
    by rewrite push_to_current_length in Hnil.
Qed.

Lemma parse_lines_app_sections (lines : list jsstring) (a b : list Sec) :
  b ≠ [] → parse_lines lines (a ++ b) = a ++ parse_lines lines b.
Proof.
  revert b. induction lines as [|line lines IH]; intros b Hb; [done|].
  cbn [parse_lines fold_left].
  destruct (parse_line_app a b line Hb) as [-> Hne]. by apply IH.
Qed.

(** X8.  A section header starts afresh: the lines from a header on are
    parsed as if the text began there, and what came before is parsed as
    if the text ended there. *)
Theorem parse_blocks_compose (pre post : list jsstring) (h : jsstring) (secs : list Sec) :
  is_header h →
  parse_lines (pre ++ h :: post) secs
  = parse_lines pre secs ++ parse_lines (h :: post) [].
Proof.
  intros [g Hg]. rewrite parse_lines_app.
  cbn [parse_lines fold_left]. unfold parse_line at 2 4. rewrite Hg.
  by rewrite parse_lines_app_sections.
Qed.

Lemma parse_blocks_compose_witness :
  parse_lines [lit "## A"; lit "- [ ] a"; lit "## B"; lit "- [X] b"] []
  = parse_lines [lit "## A"; lit "- [ ] a"] []
    ++ parse_lines [lit "## B"; lit "- [X] b"] [].
Proof.
  apply (parse_blocks_compose [lit "## A"; lit "- [ ] a"] [lit "- [X] b"]
           (lit "## B") []).
  by eexists.
Defined.

(** ** Saving and reading again settles after one save *)

Lemma header_line_cons (s : Sec) : header_line s = 35 :: 35 :: 32 :: name s.
Proof. reflexivity. Qed.

Lemma item_line_cons (it : Item) :
  item_line it
  = 45 :: 32 :: 91 :: (if done it then 120 else 32) :: 93 :: 32 :: text it.
Proof. unfold item_line. by destruct (done it). Qed.

Lemma header_capture_cons (g : jsstring) : lit "## " ++ g = 35 :: 35 :: 32 :: g.
Proof. reflexivity. Qed.

Lemma item_capture_cons (mark : N) (g : jsstring) :
  lit "- [" ++ mark :: lit "] " ++ g = 45 :: 32 :: 91 :: mark :: 93 :: 32 :: g.
Proof. reflexivity. Qed.

Lemma title_line_cons : lit "# Todo List" = 35 :: 32 :: lit "Todo List".
Proof. reflexivity. Qed.

Lemma clean_no_newline (s : jsstring) : clean s = true → has_newline s = false.
Proof.
  unfold clean, has_line_terminator, has_newline. intros [_ H]%andb_prop.
  apply negb_true_iff in H. induction s as [|c s IH]; [done|].
  cbn in *. apply orb_false_elim in H as [Hc Hs]. rewrite (IH Hs), orb_false_r.
  unfold is_line_terminator in Hc.
  by apply orb_false_elim in Hc as [[[Hc _]%orb_false_elim _]%orb_false_elim _].
Qed.

(** Where a line of [doc_lines] comes from. *)
Lemma elem_of_doc_lines (d : Document) (line : jsstring) :
  line ∈ doc_lines d ++ [[]] →
  line = lit "# Todo List" ∨ line = []
  ∨ ∃ s, s ∈ sections d
         ∧ (line = header_line s ∨ ∃ it, it ∈ items s ∧ line = item_line it).
Proof.
  unfold doc_lines. rewrite elem_of_app, elem_of_cons, list_elem_of_singleton.
  intros [[->|Hin]| ->]; [by left| |by right; left].
  right. induction (sections d) as [|s secs IH]; cbn [map concat] in Hin.
  { by apply elem_of_nil in Hin. }
  apply elem_of_app in Hin as [Hin|Hin].
  - unfold section_lines in Hin. rewrite !elem_of_cons in Hin.
    destruct Hin as [->|[->|[->|Hin]]]; [by left| |by left|].
    + right. exists s. split; [left|]. by left.
    + right. exists s. split; [left|]. right.
      apply list_elem_of_In, in_map_iff in Hin as (it & <- & Hit).
      exists it. by rewrite list_elem_of_In.
  - destruct (IH Hin) as [->|(s' & Hs' & H)]; [by left|].
    right. exists s'. split; [by right | done].
Qed.

Lemma clean_doc_lines_no_newline (d : Document) :
  all_strings clean d = true →
  Forall (λ l, has_newline l = false) (doc_lines d).
Proof.
  intros H. apply Forall_forall. intros line Hin.
  assert (Hin' : line ∈ doc_lines d ++ [[]]) by (apply elem_of_app; by left).
  unfold all_strings in H. rewrite forallb_forall in H.
  destruct (elem_of_doc_lines d line Hin') as [->|[->|(s & Hs & Hl)]]; [done..|].
  apply list_elem_of_In, H in Hs. unfold sec_strings in Hs.
  apply andb_prop in Hs as [Hn Hi].
  destruct Hl as [->|(it & Hit & ->)].
  - unfold header_line. rewrite has_newline_app.
    by rewrite (clean_no_newline _ Hn).
  - rewrite forallb_forall in Hi. apply list_elem_of_In, Hi in Hit.
    unfold item_line. rewrite !has_newline_app, (clean_no_newline _ Hit).
    by destruct (done it).
Qed.

(** Reading the serialization of a document with clean strings stores
    only non-empty clean strings. *)
Lemma reparse_storable (d : Document) :
  all_strings clean d = true →
  forallb (sec_strings storable) (parse_lines (doc_lines d ++ [[]]) []) = true.
Proof.
  intros H. unfold all_strings in H. rewrite forallb_forall in H.
  assert (Hstore : ∀ g, dot_plus_to_end g = true → clean g = true →
                        storable (trim g) = true).
  { intros g Hg [Ht _]%andb_prop. rewrite trim_id by done.
    unfold storable. by rewrite Hg, Ht. }
  apply parse_lines_strings; [| |done].
  - intros line g Hin [Hline Hg]%sectionMatch_Some.
    apply Hstore; [done|]. rewrite header_capture_cons in Hline.
    destruct (elem_of_doc_lines d line Hin) as [->|[->|(s & Hs & Hl)]].
    + rewrite title_line_cons in Hline. discriminate Hline.
    + discriminate Hline.
    + apply list_elem_of_In, H in Hs. apply andb_prop in Hs as [Hn Hi].
      destruct Hl as [->|(it & Hit & ->)].
      * rewrite header_line_cons in Hline. by injection Hline as <-.
      * rewrite item_line_cons in Hline. discriminate Hline.
  - intros line mark g Hin (Hline & _ & Hg)%itemMatch_Some.
    apply Hstore; [done|]. rewrite item_capture_cons in Hline.
    destruct (elem_of_doc_lines d line Hin) as [->|[->|(s & Hs & Hl)]].
    + rewrite title_line_cons in Hline. discriminate Hline.
    + discriminate Hline.
    + apply list_elem_of_In, H in Hs. apply andb_prop in Hs as [Hn Hi].
      destruct Hl as [->|(it & Hit & ->)].
      * rewrite header_line_cons in Hline. discriminate Hline.
      * rewrite item_line_cons in Hline. injection Hline as _ <-.
        rewrite forallb_forall in Hi. by apply list_elem_of_In, Hi in Hit.
Qed.

Lemma reparse_roundtrippable (d : Document) :
  all_strings clean d = true →
  roundtrippable (parseContent (serializeTodoMd d)) = true.
Proof.
  intros H. pose proof (reparse_storable d H) as Hs.
  unfold parseContent.
  rewrite serialize_doc_lines, split_lf_unlines
    by by apply clean_doc_lines_no_newline.
  by destruct (parse_lines (doc_lines d ++ [[]]) []).
Qed.

(** X1.  Whatever text the file held, once the parsed document has been saved
    and read again, saving and reading change nothing any more. *)
Theorem save_then_read_is_stable (content : jsstring) :
  let d1 := parseContent (serializeTodoMd (parseContent content)) in
  parseContent (serializeTodoMd d1) = d1.
Proof.
  intros d1. apply roundtrip_on_storable, reparse_roundtrippable.
  apply parseContent_clean.
Qed.

(** The first save can still change the document: a header whose name
    is blank is stored with the empty name, which no header line gives
    back, and its items pass to the section before. *)
Lemma first_save_can_change :
  let content := lit "## A" ++ [LF] ++ lit "##  " ++ [LF] ++ lit "- [ ] x" in
  parseContent content
  = mkDoc [mkSec (lit "A") []; mkSec [] [mkItem false (lit "x")]]
  ∧ parseContent (serializeTodoMd (parseContent content))
    = mkDoc [mkSec (lit "A") [mkItem false (lit "x")]].
Proof. split; reflexivity. Qed.

(** ** The git helpers *)



Lemma events_since_snoc1 (w : World) (e1 : Event) (f : option jsstring) (rs : list GitReply) :
  events_since w (mkWorld f rs (events w ++ [e1])) = [e1].
Proof. unfold events_since. cbn. apply drop_app_length. Qed.

Lemma events_since_snoc2 (w : World) (e1 e2 : Event) (f : option jsstring) (rs : list GitReply) :
  events_since w (mkWorld f rs ((events w ++ [e1]) ++ [e2])) = [e1; e2].
Proof. unfold events_since. cbn. rewrite <- app_assoc. apply drop_app_length. Qed.

Lemma events_since_snoc3 (w : World) (e1 e2 e3 : Event) (f : option jsstring) (rs : list GitReply) :
  events_since w (mkWorld f rs (((events w ++ [e1]) ++ [e2]) ++ [e3]))
  = [e1; e2; e3].
Proof. unfold events_since. cbn. rewrite <- !app_assoc. apply drop_app_length. Qed.

Lemma events_since_snoc4 (w : World) (e1 e2 e3 e4 : Event) (f : option jsstring) (rs : list GitReply) :
  events_since w (mkWorld f rs ((((events w ++ [e1]) ++ [e2]) ++ [e3]) ++ [e4]))
  = [e1; e2; e3; e4].
Proof. unfold events_since. cbn. rewrite <- !app_assoc. apply drop_app_length. Qed.

Ltac since_events :=
  rewrite ?events_since_snoc4, ?events_since_snoc3, ?events_since_snoc2,
          ?events_since_snoc1.




(** X13.  When [git status --porcelain] prints nothing but white space, the
    working copy is clean and [commitAndPush] stops there: no commit and
    no push is run. *)
Theorem commitAndPush_clean_tree
    (message out1 status : jsstring) (t1 t2 : option jsstring)
    (rest : list GitReply) (w : World) :
  git_replies w = GitPrints out1 t1 :: GitPrints status t2 :: rest →
  trim status = [] →
  ∃ w', commitAndPush message w = Returned () w'
    ∧ events_since w w' = [EvGit (lit "add TODO.md"); EvGit (lit "status --porcelain")]
    ∧ git_replies w' = rest.
Proof.
  intros Hg Hs.
  unfold commitAndPush, try_catch, mbind, M_bind, mret, M_ret, git, log.
  rewrite Hg. cbn. rewrite Hs. cbn.
  eexists. split; [reflexivity|]. since_events. done.
Qed.

Lemma commitAndPush_clean_tree_witness :
  let w := mkWorld (Some (serializeTodoMd work_ship))
             [GitPrints [] None; GitPrints (lit "  " ++ [LF]) None;
              GitPrints [] None] [] in
  ∃ w', commitAndPush (lit "Add: x") w = Returned () w'
    ∧ events_since w w' = [EvGit (lit "add TODO.md"); EvGit (lit "status --porcelain")]
    ∧ git_replies w' = [GitPrints [] None].
Proof.
  intros w.
  apply (commitAndPush_clean_tree (lit "Add: x") [] (lit "  " ++ [LF]) None None
           [GitPrints [] None] w); reflexivity.
Defined.

(** X14.  When status reports a change and git answers every run, all four
    commands are run, the commit with the message between double quotes
    and every double quote of the message behind a backslash. *)
Theorem commitAndPush_dirty_tree
    (message out1 status out3 out4 : jsstring) (t1 t2 t3 t4 : option jsstring)
    (rest : list GitReply) (w : World) :
  git_replies w = GitPrints out1 t1 :: GitPrints status t2
                  :: GitPrints out3 t3 :: GitPrints out4 t4 :: rest →
  trim status ≠ [] →
  ∃ w', commitAndPush message w = Returned () w'
    ∧ events_since w w' = publish_commands message
    ∧ git_replies w' = rest.
Proof.
  intros Hg Hs.
  unfold commitAndPush, try_catch, mbind, M_bind, mret, M_ret, git, log,
    publish_commands.
  rewrite Hg. cbn. destruct (trim status) as [|c st]; [done|]. cbn.
  eexists. split; [reflexivity|]. since_events. done.
Qed.

Lemma commitAndPush_dirty_tree_witness :
  ∃ w', commitAndPush (lit "Add: x") (mkWorld None
          [GitPrints [] None; GitPrints (lit " M TODO.md") None;
           GitPrints [] None; GitPrints [] None] []) = Returned () w'
    ∧ events_since (mkWorld None
          [GitPrints [] None; GitPrints (lit " M TODO.md") None;
           GitPrints [] None; GitPrints [] None] []) w'
      = publish_commands (lit "Add: x")
    ∧ git_replies w' = [].
Proof.
  apply (commitAndPush_dirty_tree (lit "Add: x") [] (lit " M TODO.md") [] []
           None None None None []); [reflexivity|].
  vm_compute. discriminate.
Defined.

(** ** Quoting the commit message *)

Lemma escape_quotes_head (s : jsstring) : head (escape_quotes s) ≠ Some DQUOTE.
Proof.
  destruct s as [|c s]; cbn; [done|].
  destruct (c =? DQUOTE) eqn:E; cbn; [done|].
  intros [= ->]. by vm_compute in E.
Qed.

(** X15.  Different messages give different commit commands: the quoting of
    the message loses nothing. *)
Theorem escape_quotes_injective (a b : jsstring) :
  escape_quotes a = escape_quotes b → a = b.
Proof.
  revert b. induction a as [|c a IH]; intros [|e b]; cbn.
  - done.
  - by destruct (e =? DQUOTE).
  - by destruct (c =? DQUOTE).
  - destruct (c =? DQUOTE) eqn:Hc, (e =? DQUOTE) eqn:He.
    + apply N.eqb_eq in Hc, He. subst. intros [= H]. by rewrite (IH b H).
    + intros [= <- H]. pose proof (escape_quotes_head b) as Hh.
      rewrite <- H in Hh. by destruct Hh.
    + intros [= -> H]. pose proof (escape_quotes_head a) as Hh.
      rewrite H in Hh. by destruct Hh.
    + intros [= -> H]. by rewrite (IH b H).
Qed.

Lemma escape_quotes_injective_witness :
  lit "say " ++ [DQUOTE] ++ lit "hi" ++ [DQUOTE]
  = lit "say " ++ [DQUOTE] ++ lit "hi" ++ [DQUOTE].
Proof.
  apply (escape_quotes_injective
           (lit "say " ++ [DQUOTE] ++ lit "hi" ++ [DQUOTE])
           (lit "say " ++ [DQUOTE] ++ lit "hi" ++ [DQUOTE])).
  reflexivity.
Defined.

(** ** Saving *)




(** ** Every request *)

Lemma handle_respond (r : Request) : handle r = respond (change_of r).
Proof. by destruct r. Qed.






(** X17.  Every commit message of a request is non-empty, so no request is
    ever committed under the fallback message "Update todos". *)
Theorem commit_message_never_empty
    (r : Request) (d d' : Document) (message : jsstring) :
  change_of r d = Some (d', message) → message ≠ [].
Proof.
  destruct r as [s t|s i|s i t|s i|[[|c n]|]|nm]; cbn;
    unfold addItem_change, toggleItem_change, editItem_change,
      removeItem_change, addSection_change, removeSection_change;
    try done.
  - destruct (find_section s d) as [[k sec]|]; [|done]. by intros [= _ <-].
  - destruct (find_section s d) as [[k sec]|]; [|done].
    destruct (item_at (items sec) i) as [it|]; [|done].
    intros [= _ <-]. cbn. by destruct (negb (done it)).
  - destruct (find_section s d) as [[k sec]|]; [|done].
    destruct (item_at (items sec) i) as [it|]; [|done]. by intros [= _ <-].
  - destruct (find_section s d) as [[k sec]|]; [|done].
    destruct (item_at (items sec) i) as [it|]; [|done]. by intros [= _ <-].
  - destruct (find_section (c :: n) d); [done|]. by intros [= _ <-].
  - by intros [= _ <-].
Qed.

Lemma commit_message_never_empty_witness :
  lit "Add: " ++ lit "x" ≠ [].
Proof.
  apply (commit_message_never_empty (PostTodo (lit "Work") (lit "x")) work_ship
           (mkDoc [mkSec (lit "Work")
                     [mkItem true (lit "ship"); mkItem false (lit "x")]])).
  reflexivity.
Defined.

(** ** Reading *)


Lemma pull_then_parse_events (w w1 w' : World) (evs1 evs2 : list Event) :
  events w1 = events w ++ evs1 → events w' = events w1 ++ evs2 →
  existsb is_write evs1 = false → existsb starts_publish evs1 = false →
  existsb is_write evs2 = false → existsb starts_publish evs2 = false →
  wrote_file w w' = false ∧ publish_attempted w w' = false.
Proof.
  intros H1 H2 Hw1 Hp1 Hw2 Hp2.
  assert (H : events_since w w' = evs1 ++ evs2).
  { apply events_since_app. by rewrite H2, H1, <- app_assoc. }
  unfold wrote_file, publish_attempted.
  by rewrite H, !existsb_app, Hw1, Hp1, Hw2, Hp2.
Qed.

(** X18.  The three endpoints that read never throw, never write the file and
    never attempt a publish; [/api/todos] and [/api/sync] answer with the
    parse of the file as their last pull left it, the webhook with
    [ok: true]. *)
Theorem read_endpoints_only_pull (w : World) :
  (∃ d w', get_api_todos w = Returned d w'
     ∧ d = from_option parseContent (mkDoc [general]) (todo_file w')
     ∧ wrote_file w w' = false ∧ publish_attempted w w' = false)
  ∧ (∃ d w', post_api_sync w = Returned d w'
       ∧ d = from_option parseContent (mkDoc [general]) (todo_file w')
       ∧ wrote_file w w' = false ∧ publish_attempted w w' = false)
  ∧ (∃ w', post_webhook_github w = Returned true w'
       ∧ wrote_file w w' = false ∧ publish_attempted w w' = false).
Proof.
  split; [|split].
  - destruct (parseTodoMd_returns w) as (d & w' & evs & H & Hd & Hev & Hw & Hp).
    exists d, w'. split; [done|]. split; [by destruct (todo_file w')|].
    unfold wrote_file, publish_attempted.
    by rewrite (events_since_app _ _ _ Hev).
  - destruct (pullLatest_returns w) as (w1 & evs1 & H1 & Hev1 & Hw1 & Hp1).
    destruct (parseTodoMd_returns w1) as (d & w' & evs & H & Hd & Hev & Hw & Hp).
    exists d, w'. unfold post_api_sync, mbind, M_bind. rewrite H1.
    split; [done|]. split; [by destruct (todo_file w')|].
    by apply (pull_then_parse_events w w1 w' evs1 evs).
  - destruct (pullLatest_returns w) as (w1 & evs1 & H1 & Hev1 & Hw1 & Hp1).
    exists w1. unfold post_webhook_github, mbind, M_bind, mret, M_ret.
    rewrite H1. split; [done|]. unfold wrote_file, publish_attempted.
    by rewrite (events_since_app _ _ _ Hev1).
Qed.

(** ** The serialized text *)

Lemma plain_doc_lines_no_newline (d : Document) :
  all_strings (λ s, negb (has_newline s)) d = true →
  Forall (λ l, has_newline l = false) (doc_lines d).
Proof.
  intros H. apply Forall_forall. intros line Hin.
  assert (Hin' : line ∈ doc_lines d ++ [[]]) by (apply elem_of_app; by left).
  unfold all_strings in H. rewrite forallb_forall in H.
  destruct (elem_of_doc_lines d line Hin') as [->|[->|(s & Hs & Hl)]]; [done..|].
  apply list_elem_of_In, H in Hs. unfold sec_strings in Hs.
  apply andb_prop in Hs as [Hn%negb_true_iff Hi].
  destruct Hl as [->|(it & Hit & ->)].
  - unfold header_line. by rewrite has_newline_app, Hn.
  - rewrite forallb_forall in Hi.
    apply list_elem_of_In, Hi, negb_true_iff in Hit.
    unfold item_line. rewrite !has_newline_app, Hit. by destruct (done it).
Qed.

Lemma length_concat_section_lines (secs : list Sec) :
  length (concat (map section_lines secs))
  = (3 * length secs + sum_list (map (λ s, length (items s)) secs))%nat.
Proof.
  induction secs as [|s secs IH]; [done|].
  cbn [map concat sum_list sum_list_with length].
  rewrite length_app, IH. unfold section_lines. cbn [length].
  rewrite length_map. unfold id. lia.
Qed.

(** X9.  When no name and no text holds a line feed, the serialized text has
    the title line, three lines per section, one line per item, and the
    empty piece after the last line feed. *)
Theorem serialize_line_count (d : Document) :
  all_strings (λ s, negb (has_newline s)) d = true →
  length (split_lf (serializeTodoMd d))
  = (2 + 3 * length (sections d) + item_count d)%nat.
Proof.
  intros H.
  rewrite serialize_doc_lines, split_lf_unlines
    by by apply plain_doc_lines_no_newline.
  rewrite length_app. unfold doc_lines, item_count. cbn [length].
  rewrite length_concat_section_lines. lia.
Qed.

Lemma serialize_line_count_witness :
  length (split_lf (serializeTodoMd work_ship)) = 6%nat.
Proof. apply (serialize_line_count work_ship). reflexivity. Defined.

(** ** The operations on documents *)

Lemma find_section_lookup (nm : jsstring) (d : Document) (k : nat) (sec : Sec) :
  find_section nm d = Some (k, sec) → sections d !! k = Some sec ∧ name sec = nm.
Proof.
  unfold find_section. by intros (Hk & Hnm & _)%list_find_Some.
Qed.

Lemma with_items_names (d : Document) (nm : jsstring) (k : nat) (sec : Sec) (its : list Item) :
  find_section nm d = Some (k, sec) →
  name <$> sections (with_items d k sec its) = name <$> sections d.
Proof.
  intros [Hk _]%find_section_lookup. cbn.
  rewrite list_fmap_insert. cbn. apply list_insert_id.
  by rewrite list_lookup_fmap, Hk.
Qed.

Lemma item_changes_keep_names
    (section : jsstring) (index : Z) (new_text : jsstring) (d : Document) :
  name <$> sections (addItem section new_text d) = name <$> sections d
  ∧ name <$> sections (toggleItem section index d) = name <$> sections d
  ∧ name <$> sections (editItem section index new_text d) = name <$> sections d
  ∧ name <$> sections (removeItem section index d) = name <$> sections d.
Proof.
  unfold addItem, toggleItem, editItem, removeItem, apply,
    addItem_change, toggleItem_change, editItem_change, removeItem_change.
  destruct (find_section section d) as [[k sec]|] eqn:Hf; [|done].
  split; [by apply (with_items_names _ section)|].
  destruct (item_at (items sec) index) as [it|]; [|done].
  split_and!; by apply (with_items_names _ section).
Qed.

(** X20.  Adding, toggling, editing and removing an item never change the
    section names or their order. *)
Theorem item_requests_keep_section_names
    (section : jsstring) (index : Z) (new_text : jsstring) (d : Document) :
  name <$> sections (addItem section new_text d) = name <$> sections d
  ∧ name <$> sections (toggleItem section index d) = name <$> sections d
  ∧ name <$> sections (editItem section index new_text d) = name <$> sections d
  ∧ name <$> sections (removeItem section index d) = name <$> sections d.
Proof. apply item_changes_keep_names. Qed.

Lemma with_items_again (d : Document) (k : nat) (sec sec' : Sec) (its : list Item) :
  sections d !! k = Some sec → name sec' = name sec → its = items sec →
  with_items (mkDoc (<[k := sec']> (sections d))) k sec' its = d.
Proof.
  intros Hk Hn ->. unfold with_items. cbn [sections].
  rewrite list_insert_insert_eq, Hn.
  rewrite list_insert_id; [by destruct d | by destruct sec].
Qed.

(** X22.  Removing the item that [addItem] has just appended gives the
    document back. *)
Theorem addItem_then_removeItem
    (section text : jsstring) (d : Document) (k : nat) (sec : Sec) :
  find_section section d = Some (k, sec) →
  removeItem section (Z.of_nat (length (items sec))) (addItem section text d) = d.
Proof.
  intros Hf. destruct (find_section_lookup _ _ _ _ Hf) as [Hk Hnm].
  set (sec1 := mkSec (name sec) (items sec ++ [mkItem false text])).
  assert (Ha : addItem section text d = mkDoc (<[k := sec1]> (sections d))).
  { unfold addItem, apply, addItem_change. by rewrite Hf. }
  assert (Hf1 : find_section section (addItem section text d) = Some (k, sec1)).
  { rewrite Ha. by apply (find_section_insert _ _ _ sec). }
  assert (Hi : item_at (items sec1) (Z.of_nat (length (items sec)))
               = Some (mkItem false text)).
  { unfold item_at. rewrite (proj2 (Z.leb_le _ _)) by lia.
    rewrite Nat2Z.id. cbn. by rewrite list_lookup_middle. }
  unfold removeItem, apply, removeItem_change. rewrite Hf1, Hi, Ha.
  rewrite Nat2Z.id. apply (with_items_again d k sec sec1); [done..|].
  cbn. by rewrite (delete_middle (items sec) []), app_nil_r.
Qed.

Lemma addItem_then_removeItem_witness :
  removeItem (lit "Work") 1 (addItem (lit "Work") (lit "x") work_ship)
  = work_ship.
Proof.
  apply (addItem_then_removeItem (lit "Work") (lit "x") work_ship 0
           (mkSec (lit "Work") [mkItem true (lit "ship")])).
  reflexivity.
Defined.

Lemma editItem_hit (section : jsstring) (index : Z) (new_text : jsstring)
    (d : Document) (k : nat) (sec : Sec) (it : Item) :
  find_section section d = Some (k, sec) →
  item_at (items sec) index = Some it →
  let sec1 := mkSec (name sec)
                (<[Z.to_nat index := mkItem (done it) new_text]> (items sec)) in
  editItem section index new_text d = mkDoc (<[k := sec1]> (sections d))
  ∧ find_section section (editItem section index new_text d) = Some (k, sec1)
  ∧ item_at (items sec1) index = Some (mkItem (done it) new_text).
Proof.
  intros Hf Hi sec1.
  assert (He : editItem section index new_text d = mkDoc (<[k := sec1]> (sections d))).
  { unfold editItem, apply, editItem_change. by rewrite Hf, Hi. }
  split; [done|]. rewrite He. split.
  - apply (find_section_insert _ _ _ sec); [done|].
    by apply find_section_lookup in Hf as [_ ?].
  - by apply (item_at_insert _ _ it).
Qed.

(** X23.  An edit changes the text of the addressed item and nothing else: the
    done flag stays, the section keeps its place and length, and every
    other item of it is as before. *)
Theorem editItem_sets_text (section : jsstring) (index : Z) (new_text : jsstring)
    (d : Document) (k : nat) (sec : Sec) (it : Item) :
  find_section section d = Some (k, sec) →
  item_at (items sec) index = Some it →
  ∃ sec1, find_section section (editItem section index new_text d) = Some (k, sec1)
    ∧ item_at (items sec1) index = Some (mkItem (done it) new_text)
    ∧ length (items sec1) = length (items sec)
    ∧ ∀ j, j ≠ Z.to_nat index → items sec1 !! j = items sec !! j.
Proof.
  intros Hf Hi. destruct (editItem_hit _ _ new_text _ _ _ _ Hf Hi) as (_ & Hf1 & Hi1).
  eexists. split; [exact Hf1|]. split; [exact Hi1|]. cbn. split.
  - apply length_insert.
  - intros j Hj. by apply list_lookup_insert_ne.
Qed.

Lemma editItem_sets_text_witness :
  ∃ sec1, find_section (lit "Work") (editItem (lit "Work") 0 (lit "sail") work_ship)
          = Some (0%nat, sec1)
    ∧ item_at (items sec1) 0 = Some (mkItem true (lit "sail")).
Proof.
  destruct (editItem_sets_text (lit "Work") 0 (lit "sail") work_ship 0
              (mkSec (lit "Work") [mkItem true (lit "ship")])
              (mkItem true (lit "ship")) eq_refl eq_refl)
    as (sec1 & H1 & H2 & _).
  exists sec1. by split.
Defined.

(** X24.  Of two edits of the same item in a row, only the second counts. *)
Theorem editItem_last_wins (section : jsstring) (index : Z) (t1 t2 : jsstring)
    (d : Document) :
  editItem section index t2 (editItem section index t1 d)
  = editItem section index t2 d.
Proof.
  destruct (find_section section d) as [[k sec]|] eqn:Hf.
  2: { assert (H : ∀ t, editItem section index t d = d)
         by (intros t; unfold editItem, apply, editItem_change; by rewrite Hf).
       by rewrite !H. }
  destruct (item_at (items sec) index) as [it|] eqn:Hi.
  2: { assert (H : ∀ t, editItem section index t d = d)
         by (intros t; unfold editItem, apply, editItem_change; by rewrite Hf, Hi).
       by rewrite !H. }
  destruct (editItem_hit _ _ t1 _ _ _ _ Hf Hi) as (He1 & Hf1 & Hi1).
  destruct (editItem_hit _ _ t2 _ _ _ _ Hf1 Hi1) as (He12 & _).
  destruct (editItem_hit _ _ t2 _ _ _ _ Hf Hi) as (He2 & _).
  rewrite He12, He2, He1. cbn [sections name items done].
  by rewrite !list_insert_insert_eq.
Qed.

(** X25.  Removing an item shortens its section by one and moves the later
    items one index down; the items before it stay. *)
Theorem removeItem_shifts (section : jsstring) (index : Z)
    (d : Document) (k : nat) (sec : Sec) (it : Item) :
  find_section section d = Some (k, sec) →
  item_at (items sec) index = Some it →
  ∃ sec1, find_section section (removeItem section index d) = Some (k, sec1)
    ∧ S (length (items sec1)) = length (items sec)
    ∧ ∀ j, items sec1 !! j
           = if decide (j < Z.to_nat index)%nat then items sec !! j
             else items sec !! S j.
Proof.
  intros Hf Hi.
  set (sec1 := mkSec (name sec) (delete (Z.to_nat index) (items sec))).
  assert (Hr : removeItem section index d = mkDoc (<[k := sec1]> (sections d))).
  { unfold removeItem, apply, removeItem_change. by rewrite Hf, Hi. }
  exists sec1. rewrite Hr. split; [|split].
  - apply (find_section_insert _ _ _ sec); [done|].
    by apply find_section_lookup in Hf as [_ ?].
  - cbn. apply item_at_Some in Hi.
    rewrite length_delete by by eexists. apply lookup_lt_Some in Hi. lia.
  - intros j. cbn. case_decide.
    + by apply list_lookup_delete_lt.
    + apply list_lookup_delete_ge. lia.
Qed.

Lemma removeItem_shifts_witness :
  let d := mkDoc [mkSec (lit "Work")
                    [mkItem true (lit "ship"); mkItem false (lit "rest")]] in
  ∃ sec1, find_section (lit "Work") (removeItem (lit "Work") 0 d) = Some (0%nat, sec1)
    ∧ items sec1 !! 0%nat = Some (mkItem false (lit "rest")).
Proof.
  intros d.
  destruct (removeItem_shifts (lit "Work") 0 d 0
              (mkSec (lit "Work")
                 [mkItem true (lit "ship"); mkItem false (lit "rest")])
              (mkItem true (lit "ship")) eq_refl eq_refl)
    as (sec1 & H1 & _ & H3).
  exists sec1. split; [exact H1|]. exact (H3 0%nat).
Defined.

(** ** Sections *)

Lemma filter_all {A} (P : A → Prop) `{!∀ x, Decision (P x)} (l : list A) :
  Forall P l → filter P l = l.
Proof.
  induction 1 as [|x l Hx _ IH]; [done|]. by rewrite filter_cons_True, IH.
Qed.

Lemma filter_twice {A} (P : A → Prop) `{!∀ x, Decision (P x)} (l : list A) :
  filter P (filter P l) = filter P l.
Proof.
  apply filter_all, Forall_forall. by intros x [? _]%list_elem_of_filter.
Qed.

(** X26.  Sending the same section request twice changes nothing more than
    sending it once, for adding as for removing. *)
Theorem section_requests_idempotent
    (name_arg : option jsstring) (nm : jsstring) (d : Document) :
  addSection name_arg (addSection name_arg d) = addSection name_arg d
  ∧ removeSection nm (removeSection nm d) = removeSection nm d.
Proof.
  split.
  - unfold addSection, apply, addSection_change.
    destruct name_arg as [[|c n]|]; [done| |done].
    destruct (find_section (c :: n) d) as [[k sec]|] eqn:Hf; [by rewrite Hf|].
    destruct (find_section_Exists (c :: n)
                (mkDoc (sections d ++ [mkSec (c :: n) []]))) as [x ->]; [|done].
    cbn. apply Exists_app. right. by left.
  - destruct (filter (λ s, name s ≠ nm) (sections d)) as [|s kept] eqn:Hk.
    + by rewrite (removeSection_emptied nm d Hk), removeSection_default.
    + assert (Hs : sections (removeSection nm d) = s :: kept).
      { rewrite removeSection_kept; by rewrite Hk. }
      unfold removeSection at 1, apply, removeSection_change.
      rewrite Hs, <- Hk, filter_twice, Hk. cbn. by rewrite Hk.
Qed.

(** X27.  Adding a new section and removing it again gives the document back,
    provided the name is new and not empty and the document had a
    section, so that the removal leaves one. *)
Theorem addSection_then_removeSection (nm : jsstring) (d : Document) :
  Forall (λ s, name s ≠ nm) (sections d) → nm ≠ [] → sections d ≠ [] →
  removeSection nm (addSection (Some nm) d) = d.
Proof.
  intros Hfresh Hnm Hne.
  assert (Ha : addSection (Some nm) d = mkDoc (sections d ++ [mkSec nm []])).
  { unfold addSection, apply, addSection_change. destruct nm; [done|].
    by rewrite (proj2 (find_section_None _ _) Hfresh). }
  rewrite Ha. unfold removeSection, apply, removeSection_change. cbn [sections].
  rewrite filter_app, (filter_all _ _ Hfresh).
  rewrite filter_cons_False, filter_nil, app_nil_r by (cbn; tauto).
  destruct d as [secs]. cbn in *. by destruct secs.
Qed.

Lemma addSection_then_removeSection_witness :
  removeSection (lit "Home") (addSection (Some (lit "Home")) work_ship) = work_ship.
Proof.
  apply (addSection_then_removeSection (lit "Home") work_ship).
  - repeat constructor. vm_compute. discriminate.
  - vm_compute. discriminate.
  - vm_compute. discriminate.
Defined.

(** ** Invariants of the requests *)

Lemma NoDup_names_filter (P : Sec → Prop) `{!∀ s, Decision (P s)} (l : list Sec) :
  NoDup (name <$> l) → NoDup (name <$> filter P l).
Proof.
  induction l as [|x l IH]; [done|].
  rewrite fmap_cons, NoDup_cons. intros [Hx Hl].
  rewrite filter_cons. case_decide; [|by apply IH].
  rewrite fmap_cons, NoDup_cons. split; [|by apply IH].
  intros (y & Hy & [_ Hin]%list_elem_of_filter)%list_elem_of_fmap.
  apply Hx. apply list_elem_of_fmap. by exists y.
Qed.

(** X21.  No request makes two sections share a name: when the names of the
    parsed document are all different, so are those of the answer. *)
Theorem requests_keep_names_unique (r : Request) (d : Document) :
  NoDup (name <$> sections d) →
  NoDup (name <$> sections (apply (change_of r) d)).
Proof.
  intros H. destruct r as [s t|s i|s i t|s i|[[|c n]|]|nm]; cbn [change_of];
    try done.
  - destruct (item_changes_keep_names s 0 t d) as (E & _).
    unfold addItem in E. by rewrite E.
  - destruct (item_changes_keep_names s i [] d) as (_ & E & _).
    unfold toggleItem in E. by rewrite E.
  - destruct (item_changes_keep_names s i t d) as (_ & _ & E & _).
    unfold editItem in E. by rewrite E.
  - destruct (item_changes_keep_names s i [] d) as (_ & _ & _ & E).
    unfold removeItem in E. by rewrite E.
  - unfold apply, addSection_change.
    destruct (find_section (c :: n) d) eqn:Hf; [done|]. cbn [sections].
    apply find_section_None in Hf. rewrite fmap_app. apply NoDup_app.
    split; [done|]. split; [|apply NoDup_singleton].
    intros x (y & -> & Hy)%list_elem_of_fmap Hin.
    apply list_elem_of_singleton in Hin. cbn in Hin.
    rewrite Forall_forall in Hf. by apply (Hf y).
  - unfold apply, removeSection_change. cbn [sections].
    pose proof (NoDup_names_filter (λ s, name s ≠ nm) _ H) as Hk.
    destruct (filter (λ s, name s ≠ nm) (sections d)); [|done].
    apply NoDup_singleton.
Qed.

Lemma requests_keep_names_unique_witness :
  NoDup (name <$> sections (addSection (Some (lit "Home")) work_ship)).
Proof.
  apply (requests_keep_names_unique (PostSection (Some (lit "Home"))) work_ship).
  apply NoDup_singleton.
Defined.







(** With a text that is not storable the answer and the file part ways:
    the answer keeps the text as sent, the file gives it back trimmed. *)
Lemma padded_answer_differs_from_file :
  match handle (PostTodo (lit "Work") (lit " rest ")) sample_world with
  | Returned d' w' =>
      from_option parseContent (mkDoc [general]) (todo_file w')
      = mkDoc [mkSec (lit "Work")
                 [mkItem true (lit "ship"); mkItem false (lit "rest")]]
      ∧ d' = mkDoc [mkSec (lit "Work")
                      [mkItem true (lit "ship"); mkItem false (lit " rest ")]]
  | Thrown _ => False
  end.
Proof. by vm_compute. Qed.

(** ** The session guard *)

(** X19.  Without an authenticated session a request to any of these routes,
    the GitHub webhook included, is redirected to the login page and
    changes nothing: no git run, no read, no write.  With a session the
    handler runs and its answer is never a redirect. *)
Theorem requireAuth_guards_every_endpoint (e : Endpoint) (w : World) :
  serve false e w = Returned (RedirectTo (lit "/login")) w
  ∧ ∃ reply w', serve true e w = Returned reply w'
      ∧ match reply with RedirectTo _ => False | Json _ | JsonOk _ => True end.
Proof.
  split.
  - unfold serve, requireAuth.
    by destruct e as [[]| | |]; cbn [path_of]; rewrite decide_False by by vm_compute.
  - unfold serve, requireAuth, mbind, M_bind, mret, M_ret.
    destruct e as [r| | |].
    + rewrite handle_respond.
      destruct (respond_returns (change_of r) w) as (d0 & w0 & w' & _ & -> & _).
      by eexists _, _.
    + destruct (parseTodoMd_returns w) as (d & w' & evs & H & _).
      unfold get_api_todos. rewrite H. by eexists _, _.
    + destruct (pullLatest_returns w) as (w1 & evs1 & H1 & _).
      destruct (parseTodoMd_returns w1) as (d & w' & evs & H & _).
      unfold post_api_sync, mbind, M_bind. rewrite H1, H. by eexists _, _.
    + destruct (pullLatest_returns w) as (w1 & evs1 & H1 & _).
      unfold post_webhook_github, mbind, M_bind, mret, M_ret. rewrite H1.
      by eexists _, _.
Qed.
